(** * fixer_v2/query/type.go: tokens and AST nodes of the pattern query language

    A shallow embedding of [type.go] and the properties of its [Equal]
    methods, constructors and accessors.

    Layout of the development:
    - the value model: Go structs as records, the [Node] interface as an
      inductive with one constructor per implementing type, methods as
      functions ([T_m] for Go's [T.m]), run-time panics as [None];
    - the reference model: the same methods ([T_m_ref]) over a store of
      objects, with pointers, nil and sharing;
    - a concrete choice of the parameters and a sample store;
    - the properties of the value model, the properties of the reference
      model and its relation to the value model, and closed examples. *)

From Stdlib Require Import Ascii.
From stdpp Require Import base decidable option list strings numbers pretty gmap.

Set Warnings "-register-all,-clear-no-such-hyp".

Local Open Scope Z_scope.

(** ** Declarations the file uses and does not contain

    [HoleType], [Quantifier], the constants [HoleAny] and [QuantNone] and the
    [String] methods of both types are declared elsewhere in package [query].
    [type.go] compares values of both types with [==], uses the two constants
    in [NewHoleNode] and [HoleNode.String], and formats both types with the
    [%s] verb. They are taken as parameters. *)
Class HoleKinds := {
  HoleType : Type;
  Quantifier : Type;
  HoleType_eq_dec :: EqDecision HoleType;
  Quantifier_eq_dec :: EqDecision Quantifier;
  HoleAny : HoleType;
  QuantNone : Quantifier;
  HoleType_String : HoleType → string;
  Quantifier_String : Quantifier → string
}.

(** ** Enumerations

    [type TokenType int] and [type NodeType int]: any Go [int] is a value of
    the type, the named constants are the values of [iota]. *)
Abbreviation TokenType := Z (only parsing).
Abbreviation NodeType := Z (only parsing).

Definition TokenText : TokenType := 0.
Definition TokenHole : TokenType := 1.
Definition TokenLBrace : TokenType := 2.
Definition TokenRBrace : TokenType := 3.
Definition TokenWhitespace : TokenType := 4.
Definition TokenEOF : TokenType := 5.

Definition NodePattern : NodeType := 0.
Definition NodeHole : NodeType := 1.
Definition NodeText : NodeType := 2.
Definition NodeBlock : NodeType := 3.

(** ** The Go library functions the file calls

    Go strings are byte strings; [string] is a list of bytes ([ascii]). *)

(** The one-byte string [\n]. *)
Definition newline : ascii := ascii_of_nat 10.

(** The verb [%d] of [fmt.Sprintf] on a length or an index of a slice. *)
Definition fmt_d (n : nat) : string := pretty n.

(** [strings.ReplaceAll(s, old, new)] for a one-byte [old]. *)
Fixpoint strings_ReplaceAll (s : string) (old : ascii) (new : string) : string :=
  match s with
  | EmptyString => EmptyString
  | String c s' =>
      if bool_decide (c = old) then new +:+ strings_ReplaceAll s' old new
      else String c (strings_ReplaceAll s' old new)
  end.

(** [strings.TrimRight(s, cutset)] for a cutset of one byte: every trailing
    [c] is removed. *)
Fixpoint strings_TrimRight (s : string) (c : ascii) : string :=
  match s with
  | EmptyString => EmptyString
  | String a s' =>
      match strings_TrimRight s' c with
      | EmptyString => if bool_decide (a = c) then EmptyString else String a EmptyString
      | r => String a r
      end
  end.

(** The slice expression [s[lo:hi]] of a string: it panics unless
    [0 <= lo <= hi <= len(s)]. *)
Definition string_slice (s : string) (lo hi : Z) : option string :=
  if bool_decide (0 ≤ lo ∧ lo ≤ hi ∧ hi ≤ Z.of_nat (String.length s))
  then Some (String.substring (Z.to_nat lo) (Z.to_nat (hi - lo)) s)
  else None.

(** [strconv.Quote] is part of the Go library; it is a parameter. *)
Class GoStrconv := {
  strconv_Quote : string → string
}.

Section Values.
Context `{HoleKinds} `{GoStrconv}.

(** ** Structs *)

(** [type HoleConfig struct { Type HoleType; Quantifier Quantifier; Name string }] *)
Record HoleConfig := mkHoleConfig {
  HoleConfig_Type : HoleType;
  HoleConfig_Quantifier : Quantifier;
  HoleConfig_Name : string
}.

(** [type Token struct]. The record is parameterised by what stands for the
    pointer field [HoleConfig *HoleConfig]. *)
Record TokenOf (P : Type) := mkToken {
  Token_Type : TokenType;
  Token_Value : string;
  Token_Position : Z;
  Token_HoleConfig : P
}.

(** In the value model a pointer to a config is [None] for nil and [Some c]
    for a pointer to a config whose fields are [c]. *)
Definition Token : Type := TokenOf (option HoleConfig).

(** The two structs that hold a slice of [Node] are parameterised by the type
    of interface values, which is defined after them. *)
Record PatternNodeOf (N : Type) := mkPatternNode {
  PatternNode_Children : list N;
  PatternNode_pos : Z
}.

Record HoleNode := mkHoleNode {
  HoleNode_Config : HoleConfig;
  HoleNode_pos : Z
}.

Record TextNode := mkTextNode {
  TextNode_Content : string;
  TextNode_pos : Z
}.

Record BlockNodeOf (N : Type) := mkBlockNode {
  BlockNode_Content : list N;
  BlockNode_pos : Z
}.

(** A value of interface type [Node]: the dynamic type, one of the four
    pointer types that implement the interface, and the struct pointed to. *)
Inductive Node : Type :=
  | NPattern (p : PatternNodeOf Node)
  | NHole (h : HoleNode)
  | NText (t : TextNode)
  | NBlock (b : BlockNodeOf Node).

Definition PatternNode : Type := PatternNodeOf Node.
Definition BlockNode : Type := BlockNodeOf Node.

Arguments mkToken {P} _ _ _ _.
Arguments Token_Type {P} _.
Arguments Token_Value {P} _.
Arguments Token_Position {P} _.
Arguments Token_HoleConfig {P} _.
Arguments mkPatternNode {N} _ _.
Arguments PatternNode_Children {N} _.
Arguments PatternNode_pos {N} _.
Arguments mkBlockNode {N} _ _.
Arguments BlockNode_Content {N} _.
Arguments BlockNode_pos {N} _.

(** ** Token and HoleConfig *)

(** [func (h *HoleConfig) Equal(other HoleConfig) bool] *)
Definition HoleConfig_Equal (h other : HoleConfig) : bool :=
  bool_decide (HoleConfig_Name h = HoleConfig_Name other) &&
  bool_decide (HoleConfig_Type h = HoleConfig_Type other) &&
  bool_decide (HoleConfig_Quantifier h = HoleConfig_Quantifier other).

(** [func (t *Token) Equal(other Token) bool] *)
Definition Token_Equal (t other : Token) : bool :=
  if bool_decide (Token_Type t ≠ Token_Type other) ||
     bool_decide (Token_Value t ≠ Token_Value other) ||
     bool_decide (Token_Position t ≠ Token_Position other)
  then false
  else
    match Token_HoleConfig t, Token_HoleConfig other with
    | None, None => true
    | None, Some _ | Some _, None => false
    | Some c, Some d => HoleConfig_Equal c d
    end.

(** ** PatternNode *)

Definition PatternNode_Type (p : PatternNode) : NodeType := NodePattern.

Definition PatternNode_Position (p : PatternNode) : Z := PatternNode_pos p.

(** [_, ok := other.( *PatternNode ); return ok] *)
Definition PatternNode_Equal (p : PatternNode) (other : Node) : bool :=
  match other with
  | NPattern _ => true
  | _ => false
  end.

(** ** HoleNode *)

(** [func NewHoleNode(name string, pos int) *HoleNode] *)
Definition NewHoleNode (name : string) (pos : Z) : HoleNode :=
  {| HoleNode_Config :=
       {| HoleConfig_Name := name;
          HoleConfig_Type := HoleAny;
          HoleConfig_Quantifier := QuantNone |};
     HoleNode_pos := pos |}.

Definition HoleNode_Type (h : HoleNode) : NodeType := NodeHole.

Definition HoleNode_Position (h : HoleNode) : Z := HoleNode_pos h.

Definition HoleNode_Name (h : HoleNode) : string :=
  HoleConfig_Name (HoleNode_Config h).

(** [if otherHole, ok := other.( *HoleNode ); ok { return ... }; return false] *)
Definition HoleNode_Equal (h : HoleNode) (other : Node) : bool :=
  match other with
  | NHole otherHole =>
      bool_decide (HoleConfig_Name (HoleNode_Config h) =
                   HoleConfig_Name (HoleNode_Config otherHole)) &&
      bool_decide (HoleConfig_Type (HoleNode_Config h) =
                   HoleConfig_Type (HoleNode_Config otherHole)) &&
      bool_decide (HoleConfig_Quantifier (HoleNode_Config h) =
                   HoleConfig_Quantifier (HoleNode_Config otherHole)) &&
      bool_decide (HoleNode_pos h = HoleNode_pos otherHole)
  | _ => false
  end.

(** ** TextNode *)

Definition TextNode_Type (t : TextNode) : NodeType := NodeText.

Definition TextNode_Position (t : TextNode) : Z := TextNode_pos t.

(** ** BlockNode *)

Definition BlockNode_Type (b : BlockNode) : NodeType := NodeBlock.

Definition BlockNode_Position (b : BlockNode) : Z := BlockNode_pos b.

Definition BlockNode_Equal (b : BlockNode) (other : Node) : bool :=
  match other with
  | NBlock _ => true
  | _ => false
  end.

(** ** Calls through the interface *)

(** [n.Type()]: dispatch on the dynamic type. *)
Definition Node_Type (n : Node) : NodeType :=
  match n with
  | NPattern p => PatternNode_Type p
  | NHole h => HoleNode_Type h
  | NText t => TextNode_Type t
  | NBlock b => BlockNode_Type b
  end.

Definition Node_Position (n : Node) : Z :=
  match n with
  | NPattern p => PatternNode_Position p
  | NHole h => HoleNode_Position h
  | NText t => TextNode_Position t
  | NBlock b => BlockNode_Position b
  end.

(** The single-result type assertion [other.( *TextNode )]: it panics unless
    the dynamic type of [other] is [*TextNode]. *)
Definition assert_TextNode (other : Node) : option TextNode :=
  match other with
  | NText t => Some t
  | _ => None
  end.

(** [func (t *TextNode) Equal(other Node) bool]; [None] is a panic. *)
Definition TextNode_Equal (t : TextNode) (other : Node) : option bool :=
  if bool_decide (Node_Type other ≠ NodeText) then Some false
  else
    o ← assert_TextNode other;
    Some (bool_decide (TextNode_Content t = TextNode_Content o)).

(** [n.Equal(other)]: dispatch on the dynamic type of the receiver. *)
Definition Node_Equal (n other : Node) : option bool :=
  match n with
  | NPattern p => Some (PatternNode_Equal p other)
  | NHole h => Some (HoleNode_Equal h other)
  | NText t => TextNode_Equal t other
  | NBlock b => Some (BlockNode_Equal b other)
  end.

(** The loop [for i := range a { if !a[i].Equal(b[i]) { return false } }]
    of [nodesEqual], on the elements of [a] and [b] that are left. Indexing
    [b] past its end panics. *)
Fixpoint nodesEqual_loop (a b : list Node) : option bool :=
  match a, b with
  | [], _ => Some true
  | _ :: _, [] => None
  | x :: a', y :: b' =>
      e ← Node_Equal x y;
      if negb e then Some false else nodesEqual_loop a' b'
  end.

(** [func nodesEqual(a, b []Node) bool]. No method of the file calls it. *)
Definition nodesEqual (a b : list Node) : option bool :=
  if bool_decide (length a ≠ length b) then Some false
  else nodesEqual_loop a b.

(** ** The String methods

    [None] is a panic: the slice expression in [TextNode.String] is the only
    place that can. *)

(** [func (h *HoleNode) String() string] *)
Definition HoleNode_String (h : HoleNode) : string :=
  if bool_decide (HoleConfig_Type (HoleNode_Config h) = HoleAny) &&
     bool_decide (HoleConfig_Quantifier (HoleNode_Config h) = QuantNone)
  then "HoleNode(" +:+ HoleConfig_Name (HoleNode_Config h) +:+ ")"
  else "HoleNode(" +:+ HoleConfig_Name (HoleNode_Config h) +:+ ":" +:+
       HoleType_String (HoleConfig_Type (HoleNode_Config h)) +:+ ")" +:+
       Quantifier_String (HoleConfig_Quantifier (HoleNode_Config h)).

(** [func (t *TextNode) String() string] *)
Definition TextNode_String (t : TextNode) : option string :=
  let escaped := strconv_Quote (TextNode_Content t) in
  inner ← string_slice escaped 1 (Z.of_nat (String.length escaped) - 1);
  Some ("TextNode(" +:+ inner +:+ ")").

(** The loop over the children in [PatternNode.String] and
    [BlockNode.String], from index [i] on, with [result] built so far;
    [StringOf] is the method the interface call [child.String()] reaches. *)
Definition children_String (StringOf : Node → option string) :
    nat → list Node → string → option string :=
  fix go (i : nat) (children : list Node) (result : string) : option string :=
    match children with
    | [] => Some result
    | child :: rest =>
        str ← StringOf child;
        let childStr :=
          strings_ReplaceAll str newline (String newline "  ") in
        go (S i) rest
           (result +:+ ("  " +:+ fmt_d i +:+ ": " +:+ childStr +:+ String newline ""))
    end.

(** [func (p *PatternNode) String() string] *)
Definition PatternNode_String (StringOf : Node → option string)
    (p : PatternNode) : option string :=
  let result :=
    "PatternNode(" +:+ fmt_d (length (PatternNode_Children p)) +:+
    " children):" +:+ String newline "" in
  result ← children_String StringOf 0%nat (PatternNode_Children p) result;
  Some (strings_TrimRight result newline).

(** [func (b *BlockNode) String() string] *)
Definition BlockNode_String (StringOf : Node → option string)
    (b : BlockNode) : option string :=
  let result :=
    "BlockNode(" +:+ fmt_d (length (BlockNode_Content b)) +:+
    " children):" +:+ String newline "" in
  result ← children_String StringOf 0%nat (BlockNode_Content b) result;
  Some (strings_TrimRight result newline).

(** [n.String()]: dispatch on the dynamic type. *)
Fixpoint Node_String (n : Node) : option string :=
  match n with
  | NPattern p => PatternNode_String Node_String p
  | NHole h => Some (HoleNode_String h)
  | NText t => TextNode_String t
  | NBlock b => BlockNode_String Node_String b
  end.

(** ** Relations the properties are stated with *)

(** The two [HoleConfig] pointers of two tokens agree: both are nil, or
    neither is and the configs they point to have equal fields. *)
Definition HoleConfig_ptrs_agree (p q : option HoleConfig) : Prop :=
  (p = None ∧ q = None) ∨
  (∃ c d, p = Some c ∧ q = Some d ∧
          HoleConfig_Name c = HoleConfig_Name d ∧
          HoleConfig_Type c = HoleConfig_Type d ∧
          HoleConfig_Quantifier c = HoleConfig_Quantifier d).

(** What [a.Equal(b)] decides, variant by variant. *)
Definition Equal_rel (a b : Node) : Prop :=
  match a, b with
  | NPattern _, NPattern _ => True
  | NHole h, NHole g => h = g
  | NText t, NText u => TextNode_Content t = TextNode_Content u
  | NBlock _, NBlock _ => True
  | _, _ => False
  end.

End Values.

Arguments mkToken {P} _ _ _ _.
Arguments Token_Type {P} _.
Arguments Token_Value {P} _.
Arguments Token_Position {P} _.
Arguments Token_HoleConfig {P} _.
Arguments mkPatternNode {N} _ _.
Arguments PatternNode_Children {N} _.
Arguments PatternNode_pos {N} _.
Arguments mkBlockNode {N} _ _.
Arguments BlockNode_Content {N} _.
Arguments BlockNode_pos {N} _.

(** * The reference model

    The methods of [type.go] have pointer receivers and reach their
    arguments through interface values and pointers. Here the structs live
    in a store, a pointer is an address or nil, and every method is a
    computation that is handed the store and hands back a store. *)

(** Addresses; a pointer is [None] for nil. *)
Abbreviation loc := positive (only parsing).
Abbreviation ptr := (option positive) (only parsing).

(** A value of interface type [Node]: the nil interface, or a dynamic type
    with a pointer, which may itself be nil. *)
Inductive iface : Type :=
  | INil
  | IPattern (p : ptr)
  | IHole (p : ptr)
  | IText (p : ptr)
  | IBlock (p : ptr).

(** What a run of a method ends in. [OutOfFuel] stands for a recursion
    deeper than the bound the run was given. *)
Inductive outcome (S A : Type) : Type :=
  | Returns (a : A) (σ : S)
  | Panics
  | OutOfFuel.

Arguments Returns {S A} _ _.
Arguments Panics {S A}.
Arguments OutOfFuel {S A}.

Section Reference.
Context `{HoleKinds} `{GoStrconv}.

(** The structs of the file as they lie in memory. A slice of [Node] is
    kept with the struct that holds it, as the list of its elements. *)
Inductive object : Type :=
  | OToken (t : TokenOf ptr)
  | OHoleConfig (c : HoleConfig)
  | OPatternNode (p : PatternNodeOf iface)
  | OHoleNode (h : HoleNode)
  | OTextNode (t : TextNode)
  | OBlockNode (b : BlockNodeOf iface).

Definition M (A : Type) : Type := gmap loc object → outcome (gmap loc object) A.

Definition ret {A} (a : A) : M A := λ σ, Returns a σ.

Definition bind {A B} (m : M A) (k : A → M B) : M B :=
  λ σ, match m σ with
       | Returns a σ' => k a σ'
       | Panics => Panics
       | OutOfFuel => OutOfFuel
       end.

Definition panic {A} : M A := λ _, Panics.

Definition out_of_fuel {A} : M A := λ _, OutOfFuel.

(** Reading through a pointer: nil and an address that holds nothing panic. *)
Definition load (p : ptr) : M object :=
  λ σ, match p with
       | None => Panics
       | Some l => match σ !! l with
                   | Some o => Returns o σ
                   | None => Panics
                   end
       end.

(** Writing through a pointer. No method of [type.go] assigns to a field;
    the operation is here so that the model can tell a method that writes
    from one that does not. *)
Definition write (p : ptr) (o : object) : M unit :=
  λ σ, match p with
       | None => Panics
       | Some l => match σ !! l with
                   | Some _ => Returns () (<[l:=o]> σ)
                   | None => Panics
                   end
       end.

(** A panic of the value model is a panic here. *)
Definition lift {A} (r : option A) : M A :=
  match r with
  | Some a => ret a
  | None => panic
  end.

End Reference.

Notation "x ←ₘ m ; k" := (bind m (λ x, k))
  (at level 20, m at level 100, k at level 200, only parsing).

Section ReferenceMethods.
Context `{HoleKinds} `{GoStrconv}.

(** Reading a struct of a given type through a pointer of that type. *)
Definition load_Token (p : ptr) : M (TokenOf ptr) :=
  o ←ₘ load p; match o with OToken t => ret t | _ => panic end.

Definition load_HoleConfig (p : ptr) : M HoleConfig :=
  o ←ₘ load p; match o with OHoleConfig c => ret c | _ => panic end.

Definition load_PatternNode (p : ptr) : M (PatternNodeOf iface) :=
  o ←ₘ load p; match o with OPatternNode v => ret v | _ => panic end.

Definition load_HoleNode (p : ptr) : M HoleNode :=
  o ←ₘ load p; match o with OHoleNode v => ret v | _ => panic end.

Definition load_TextNode (p : ptr) : M TextNode :=
  o ←ₘ load p; match o with OTextNode v => ret v | _ => panic end.

Definition load_BlockNode (p : ptr) : M (BlockNodeOf iface) :=
  o ←ₘ load p; match o with OBlockNode v => ret v | _ => panic end.

(** ** Token and HoleConfig *)

(** [func (h *HoleConfig) Equal(other HoleConfig) bool]: the fields of the
    receiver are read through [h]; [other] is a copy of a struct. *)
Definition HoleConfig_Equal_ref (h : ptr) (other : HoleConfig) : M bool :=
  hv ←ₘ load_HoleConfig h;
  ret (bool_decide (HoleConfig_Name hv = HoleConfig_Name other) &&
       bool_decide (HoleConfig_Type hv = HoleConfig_Type other) &&
       bool_decide (HoleConfig_Quantifier hv = HoleConfig_Quantifier other)).

(** [func (t *Token) Equal(other Token) bool] *)
Definition Token_Equal_ref (t : ptr) (other : TokenOf ptr) : M bool :=
  tv ←ₘ load_Token t;
  if bool_decide (Token_Type tv ≠ Token_Type other) ||
     bool_decide (Token_Value tv ≠ Token_Value other) ||
     bool_decide (Token_Position tv ≠ Token_Position other)
  then ret false
  else
    match Token_HoleConfig tv, Token_HoleConfig other with
    | None, None => ret true
    | None, Some _ | Some _, None => ret false
    | Some _, Some _ =>
        o ←ₘ load_HoleConfig (Token_HoleConfig other);
        HoleConfig_Equal_ref (Token_HoleConfig tv) o
    end.

(** ** PatternNode *)

Definition PatternNode_Type_ref (p : ptr) : M NodeType := ret NodePattern.

Definition PatternNode_Position_ref (p : ptr) : M Z :=
  pv ←ₘ load_PatternNode p; ret (PatternNode_pos pv).

Definition PatternNode_Equal_ref (p : ptr) (other : iface) : M bool :=
  match other with
  | IPattern _ => ret true
  | _ => ret false
  end.

(** ** HoleNode *)

Definition HoleNode_Type_ref (h : ptr) : M NodeType := ret NodeHole.

Definition HoleNode_Position_ref (h : ptr) : M Z :=
  hv ←ₘ load_HoleNode h; ret (HoleNode_pos hv).

Definition HoleNode_Name_ref (h : ptr) : M string :=
  hv ←ₘ load_HoleNode h; ret (HoleConfig_Name (HoleNode_Config hv)).

Definition HoleNode_Equal_ref (h : ptr) (other : iface) : M bool :=
  match other with
  | IHole otherHole =>
      hv ←ₘ load_HoleNode h;
      ov ←ₘ load_HoleNode otherHole;
      ret (bool_decide (HoleConfig_Name (HoleNode_Config hv) =
                        HoleConfig_Name (HoleNode_Config ov)) &&
           bool_decide (HoleConfig_Type (HoleNode_Config hv) =
                        HoleConfig_Type (HoleNode_Config ov)) &&
           bool_decide (HoleConfig_Quantifier (HoleNode_Config hv) =
                        HoleConfig_Quantifier (HoleNode_Config ov)) &&
           bool_decide (HoleNode_pos hv = HoleNode_pos ov))
  | _ => ret false
  end.

Definition HoleNode_String_ref (h : ptr) : M string :=
  hv ←ₘ load_HoleNode h; ret (HoleNode_String hv).

(** ** TextNode *)

Definition TextNode_Type_ref (t : ptr) : M NodeType := ret NodeText.

Definition TextNode_Position_ref (t : ptr) : M Z :=
  tv ←ₘ load_TextNode t; ret (TextNode_pos tv).

Definition TextNode_String_ref (t : ptr) : M string :=
  tv ←ₘ load_TextNode t; lift (TextNode_String tv).

(** ** BlockNode *)

Definition BlockNode_Type_ref (b : ptr) : M NodeType := ret NodeBlock.

Definition BlockNode_Position_ref (b : ptr) : M Z :=
  bv ←ₘ load_BlockNode b; ret (BlockNode_pos bv).

Definition BlockNode_Equal_ref (b : ptr) (other : iface) : M bool :=
  match other with
  | IBlock _ => ret true
  | _ => ret false
  end.

(** ** Calls through the interface: a call on the nil interface panics. *)

Definition Node_Type_ref (n : iface) : M NodeType :=
  match n with
  | INil => panic
  | IPattern p => PatternNode_Type_ref p
  | IHole h => HoleNode_Type_ref h
  | IText t => TextNode_Type_ref t
  | IBlock b => BlockNode_Type_ref b
  end.

Definition Node_Position_ref (n : iface) : M Z :=
  match n with
  | INil => panic
  | IPattern p => PatternNode_Position_ref p
  | IHole h => HoleNode_Position_ref h
  | IText t => TextNode_Position_ref t
  | IBlock b => BlockNode_Position_ref b
  end.

(** [other.( *TextNode )] *)
Definition assert_TextNode_ref (other : iface) : M ptr :=
  match other with
  | IText o => ret o
  | _ => panic
  end.

Definition TextNode_Equal_ref (t : ptr) (other : iface) : M bool :=
  ty ←ₘ Node_Type_ref other;
  if bool_decide (ty ≠ NodeText) then ret false
  else
    tv ←ₘ load_TextNode t;
    o ←ₘ assert_TextNode_ref other;
    ov ←ₘ load_TextNode o;
    ret (bool_decide (TextNode_Content tv = TextNode_Content ov)).

Definition Node_Equal_ref (n other : iface) : M bool :=
  match n with
  | INil => panic
  | IPattern p => PatternNode_Equal_ref p other
  | IHole h => HoleNode_Equal_ref h other
  | IText t => TextNode_Equal_ref t other
  | IBlock b => BlockNode_Equal_ref b other
  end.

(** The loop over the children in the two [String] methods. *)
Definition children_String_ref (StringOf : iface → M string) :
    nat → list iface → string → M string :=
  fix go (i : nat) (children : list iface) (result : string) : M string :=
    match children with
    | [] => ret result
    | child :: rest =>
        str ←ₘ StringOf child;
        let childStr :=
          strings_ReplaceAll str newline (String newline "  ") in
        go (S i) rest
           (result +:+ ("  " +:+ fmt_d i +:+ ": " +:+ childStr +:+ String newline ""))
    end.

Definition PatternNode_String_ref (StringOf : iface → M string)
    (p : ptr) : M string :=
  pv ←ₘ load_PatternNode p;
  let result :=
    "PatternNode(" +:+ fmt_d (length (PatternNode_Children pv)) +:+
    " children):" +:+ String newline "" in
  result ←ₘ children_String_ref StringOf 0%nat (PatternNode_Children pv) result;
  ret (strings_TrimRight result newline).

Definition BlockNode_String_ref (StringOf : iface → M string)
    (b : ptr) : M string :=
  bv ←ₘ load_BlockNode b;
  let result :=
    "BlockNode(" +:+ fmt_d (length (BlockNode_Content bv)) +:+
    " children):" +:+ String newline "" in
  result ←ₘ children_String_ref StringOf 0%nat (BlockNode_Content bv) result;
  ret (strings_TrimRight result newline).

(** [n.String()]. The objects of a store may point at each other in a
    cycle, so the recursion is bounded by [fuel], the number of nested
    calls allowed. *)
Fixpoint Node_String_ref (fuel : nat) (n : iface) : M string :=
  match fuel with
  | O => out_of_fuel
  | S fuel' =>
      match n with
      | INil => panic
      | IPattern p => PatternNode_String_ref (Node_String_ref fuel') p
      | IHole h => HoleNode_String_ref h
      | IText t => TextNode_String_ref t
      | IBlock b => BlockNode_String_ref (Node_String_ref fuel') b
      end
  end.

(** ** The values a store holds *)

(** The token a [Token] struct stands for: its [HoleConfig] pointer is
    followed. *)
Definition read_Token (σ : gmap loc object) (t : TokenOf ptr) : option Token :=
  match Token_HoleConfig t with
  | None =>
      Some (mkToken (Token_Type t) (Token_Value t) (Token_Position t) None)
  | Some l =>
      match σ !! l with
      | Some (OHoleConfig c) =>
          Some (mkToken (Token_Type t) (Token_Value t) (Token_Position t) (Some c))
      | _ => None
      end
  end.

(** The node an interface value stands for, followed to depth [fuel]. *)
Fixpoint read_Node (fuel : nat) (σ : gmap loc object) (n : iface) : option Node :=
  match fuel with
  | O => None
  | S fuel' =>
      match n with
      | INil => None
      | IPattern p =>
          l ← p; o ← σ !! l;
          match o with
          | OPatternNode pv =>
              children ← mapM (read_Node fuel' σ) (PatternNode_Children pv);
              Some (NPattern (mkPatternNode children (PatternNode_pos pv)))
          | _ => None
          end
      | IHole p =>
          l ← p; o ← σ !! l;
          match o with OHoleNode hv => Some (NHole hv) | _ => None end
      | IText p =>
          l ← p; o ← σ !! l;
          match o with OTextNode tv => Some (NText tv) | _ => None end
      | IBlock p =>
          l ← p; o ← σ !! l;
          match o with
          | OBlockNode bv =>
              content ← mapM (read_Node fuel' σ) (BlockNode_Content bv);
              Some (NBlock (mkBlockNode content (BlockNode_pos bv)))
          | _ => None
          end
      end
  end.

(** A computation that returns leaves the store as it found it. *)
Definition readonly {A} (m : M A) : Prop :=
  ∀ σ a σ', m σ = Returns a σ' → σ' = σ.

End ReferenceMethods.

(** * Definitions the further properties are stated with *)

Section MoreDefinitions.
Context `{HoleKinds}.

(** The node [n] with every position, its own and those of the nodes below
    it, replaced by its image under [f]. *)
Fixpoint map_pos (f : Z → Z) (n : Node) : Node :=
  match n with
  | NPattern p =>
      NPattern (mkPatternNode (map (map_pos f) (PatternNode_Children p))
                              (f (PatternNode_pos p)))
  | NHole h => NHole (mkHoleNode (HoleNode_Config h) (f (HoleNode_pos h)))
  | NText t => NText (mkTextNode (TextNode_Content t) (f (TextNode_pos t)))
  | NBlock b =>
      NBlock (mkBlockNode (map (map_pos f) (BlockNode_Content b))
                          (f (BlockNode_pos b)))
  end.

(** The interface value [n] is not nil and its pointer leads to a struct of
    its dynamic type. Nothing is asked of the children of that struct. *)
Definition allocated (σ : gmap loc object) (n : iface) : Prop :=
  match n with
  | INil => False
  | IPattern p => ∃ l v, p = Some l ∧ σ !! l = Some (OPatternNode v)
  | IHole p => ∃ l v, p = Some l ∧ σ !! l = Some (OHoleNode v)
  | IText p => ∃ l v, p = Some l ∧ σ !! l = Some (OTextNode v)
  | IBlock p => ∃ l v, p = Some l ∧ σ !! l = Some (OBlockNode v)
  end.

End MoreDefinitions.

(** ** Predicates on printed text *)

(** [s] holds no line break. *)
Fixpoint no_break (s : string) : Prop :=
  match s with
  | EmptyString => True
  | String c s' => c ≠ newline ∧ no_break s'
  end.

(** [s] starts with two blanks. *)
Definition indented (s : string) : Prop :=
  ∃ r, s = String " " (String " " r).

(** Every line break of [s] is followed by two blanks. *)
Fixpoint breaks_indented (s : string) : Prop :=
  match s with
  | EmptyString => True
  | String c s' => (c = newline → indented s') ∧ breaks_indented s'
  end.

(** Every line break of [s] but a last byte is followed by two blanks. *)
Fixpoint breaks_indented_open (s : string) : Prop :=
  match s with
  | EmptyString => True
  | String c s' =>
      (c = newline → s' = EmptyString ∨ indented s') ∧ breaks_indented_open s'
  end.

(** ** The lint rules of package [internal]

    The second file of the source declares one struct type per lint rule,
    each with a [Check] method that hands its arguments to a detector of
    package [lints] and a [Name] method that returns a constant. The
    detectors are not part of the source; the structs and [Name] are. *)
Inductive Rule : Type :=
  | GolangciLintRule
  | SimplifySliceExprRule
  | UnnecessaryConversionRule
  | LoopAllocationRule
  | DetectCycleRule
  | EmitFormatRule
  | SliceBoundCheckRule
  | UselessBreakRule
  | EarlyReturnOpportunityRule
  | DeferRule
  | MissingModPackageRule
  | RepeatedRegexCompilationRule
  | CyclomaticComplexityRule (Threshold : Z)
  | GnoSpecificRule.

(** [func (r *T) Name() string], for each rule type [T]. *)
Definition Rule_Name (r : Rule) : string :=
  match r with
  | GolangciLintRule => "golangci-lint"
  | SimplifySliceExprRule => "simplify-slice-range"
  | UnnecessaryConversionRule => "unnecessary-type-conversion"
  | LoopAllocationRule => "loop-allocation"
  | DetectCycleRule => "cycle-detection"
  | EmitFormatRule => "emit-format"
  | SliceBoundCheckRule => "slice-bounds-check"
  | UselessBreakRule => "useless-break"
  | EarlyReturnOpportunityRule => "early-return-opportunity"
  | DeferRule => "defer-issues"
  | MissingModPackageRule => "gno-mod-tidy"
  | RepeatedRegexCompilationRule => "repeated-regex-compilation"
  | CyclomaticComplexityRule _ => "high-cyclomatic-complexity"
  | GnoSpecificRule => "unused-package"
  end.

(** Two rules are of the same struct type. *)
Definition same_rule_type (r1 r2 : Rule) : Prop :=
  match r1, r2 with
  | CyclomaticComplexityRule _, CyclomaticComplexityRule _ => True
  | _, _ => r1 = r2
  end.

(** * A concrete choice of the parameters

    The development above holds for every choice of [HoleKinds] and
    [GoStrconv]. Closed examples need one. *)

Module SpecKinds.

(** Modelled from the spec: the declarations of [HoleType] and [Quantifier]
    are not part of [type.go]. The spec gives the capture kinds as "at
    minimum any-span, the unconstrained default" and the quantifiers as
    "exactly-one (the default, written as a single-bracket hole)" and
    "block (written as a double-bracket hole)". *)
Inductive captureKind : Type := AnySpan.

Inductive quantifier : Type := ExactlyOne | Block.

#[export] Instance captureKind_eq_dec : EqDecision captureKind.
Proof. solve_decision. Defined.

#[export] Instance quantifier_eq_dec : EqDecision quantifier.
Proof. solve_decision. Defined.

(** The spec does not say what the [String] methods of the two types print;
    the names the spec gives the values stand in for it. *)
Definition captureKind_String (k : captureKind) : string := "any-span".

Definition quantifier_String (q : quantifier) : string :=
  match q with
  | ExactlyOne => "exactly-one"
  | Block => "block"
  end.

Definition kinds : HoleKinds := {|
  HoleType := captureKind;
  Quantifier := quantifier;
  HoleAny := AnySpan;
  QuantNone := ExactlyOne;
  HoleType_String := captureKind_String;
  Quantifier_String := quantifier_String
|}.

End SpecKinds.

Module AsciiQuote.

(** [strconv.Quote] on a string of ASCII bytes: the string between double
    quotes, with Go's escape sequences for the quote, the backslash and the
    bytes that do not print. A byte above 127 is written as a [\x] escape,
    which is what Go does with a byte that is not part of a UTF-8 encoding;
    Go prints a well-formed encoding of a printable rune as it is. *)
Definition dquote : ascii := ascii_of_nat 34.

Definition backslash : ascii := ascii_of_nat 92.

Definition hex_digit (n : N) : ascii :=
  default "0"%char (String.get (N.to_nat n) "0123456789abcdef").

Definition quote_byte (c : ascii) : string :=
  let n := N_of_ascii c in
  if bool_decide (c = dquote) then String backslash (String dquote "")
  else if bool_decide (c = backslash) then String backslash (String backslash "")
  else if bool_decide (n = 7%N) then String backslash "a"
  else if bool_decide (n = 8%N) then String backslash "b"
  else if bool_decide (n = 12%N) then String backslash "f"
  else if bool_decide (n = 10%N) then String backslash "n"
  else if bool_decide (n = 13%N) then String backslash "r"
  else if bool_decide (n = 9%N) then String backslash "t"
  else if bool_decide (n = 11%N) then String backslash "v"
  else if bool_decide (32 ≤ n ∧ n < 127)%N then String c ""
  else String backslash
         (String "x" (String (hex_digit (n / 16)) (String (hex_digit (n mod 16)) ""))).

Fixpoint quote_bytes (s : string) : string :=
  match s with
  | EmptyString => EmptyString
  | String c s' => quote_byte c +:+ quote_bytes s'
  end.

Definition Quote (s : string) : string :=
  String dquote (quote_bytes s +:+ String dquote "").

Definition strconv : GoStrconv := {| strconv_Quote := Quote |}.

End AsciiQuote.

(** ** A store with a pattern and a token

    The pattern [if :[cond] {:[[body]]}] as the objects a parser would
    allocate for it, a second pattern node that shares the hole [cond], and
    the token of that hole. *)
Module Sample.

#[local] Existing Instance SpecKinds.kinds.
#[local] Existing Instance AsciiQuote.strconv.

Definition cond_config : HoleConfig :=
  {| HoleConfig_Type := SpecKinds.AnySpan;
     HoleConfig_Quantifier := SpecKinds.ExactlyOne;
     HoleConfig_Name := "cond" |}.

Definition body_config : HoleConfig :=
  {| HoleConfig_Type := SpecKinds.AnySpan;
     HoleConfig_Quantifier := SpecKinds.Block;
     HoleConfig_Name := "body" |}.

Definition cond_token : TokenOf ptr :=
  {| Token_Type := TokenHole;
     Token_Value := ":[cond]";
     Token_Position := 3;
     Token_HoleConfig := Some 9%positive |}.

Definition σ0 : gmap loc object :=
  list_to_map
    [ (1%positive, OPatternNode (H := SpecKinds.kinds)
         {| PatternNode_Children :=
              [IText (Some 2%positive); IHole (Some 3%positive);
               IText (Some 4%positive); IBlock (Some 5%positive)];
            PatternNode_pos := 0 |});
      (2%positive, OTextNode {| TextNode_Content := "if "; TextNode_pos := 0 |});
      (3%positive, OHoleNode (NewHoleNode "cond" 3));
      (4%positive, OTextNode {| TextNode_Content := " "; TextNode_pos := 10 |});
      (5%positive, OBlockNode
         {| BlockNode_Content := [IHole (Some 6%positive)];
            BlockNode_pos := 11 |});
      (6%positive, OHoleNode {| HoleNode_Config := body_config; HoleNode_pos := 12 |});
      (7%positive, OPatternNode
         {| PatternNode_Children := [IHole (Some 3%positive)];
            PatternNode_pos := 0 |});
      (8%positive, OToken cond_token);
      (9%positive, OHoleConfig cond_config) ].

Definition pattern : iface := IPattern (Some 1%positive).

Definition other_pattern : iface := IPattern (Some 7%positive).

(** The values the store holds at [pattern], [other_pattern] and
    [cond_token]. *)
Definition pattern_value : Node :=
  NPattern
    {| PatternNode_Children :=
         [NText {| TextNode_Content := "if "; TextNode_pos := 0 |};
          NHole (NewHoleNode "cond" 3);
          NText {| TextNode_Content := " "; TextNode_pos := 10 |};
          NBlock {| BlockNode_Content :=
                      [NHole {| HoleNode_Config := body_config;
                                HoleNode_pos := 12 |}];
                    BlockNode_pos := 11 |}];
       PatternNode_pos := 0 |}.

Definition other_pattern_value : Node :=
  NPattern
    {| PatternNode_Children := [NHole (NewHoleNode "cond" 3)];
       PatternNode_pos := 0 |}.

Definition cond_token_value : Token :=
  {| Token_Type := TokenHole;
     Token_Value := ":[cond]";
     Token_Position := 3;
     Token_HoleConfig := Some cond_config |}.

End Sample.

(** ** A store with a block that contains itself and two copies of a config *)
Module Shared.

#[local] Existing Instance SpecKinds.kinds.

Definition x_config : HoleConfig :=
  {| HoleConfig_Type := SpecKinds.AnySpan;
     HoleConfig_Quantifier := SpecKinds.ExactlyOne;
     HoleConfig_Name := "x" |}.

Definition x_token : TokenOf ptr :=
  {| Token_Type := TokenHole;
     Token_Value := ":[x]";
     Token_Position := 0;
     Token_HoleConfig := Some 3%positive |}.

(** The same token with its config at another address. *)
Definition x_token_copy : TokenOf ptr :=
  {| Token_Type := TokenHole;
     Token_Value := ":[x]";
     Token_Position := 0;
     Token_HoleConfig := Some 4%positive |}.

Definition σ1 : gmap loc object :=
  list_to_map
    [ (1%positive, OBlockNode (H := SpecKinds.kinds)
         {| BlockNode_Content := [IBlock (Some 1%positive)];
            BlockNode_pos := 0 |});
      (2%positive, OToken x_token);
      (3%positive, OHoleConfig x_config);
      (4%positive, OHoleConfig x_config) ].

Definition loop_block : iface := IBlock (Some 1%positive).

End Shared.

(** * Properties of the value model *)

Section ValueProperties.
Context `{HoleKinds} `{GoStrconv}.

(** ** HoleConfig and Token *)

Lemma HoleConfig_Equal_true (a b : HoleConfig) :
  HoleConfig_Equal a b = true ↔
  HoleConfig_Name a = HoleConfig_Name b ∧
  HoleConfig_Type a = HoleConfig_Type b ∧
  HoleConfig_Quantifier a = HoleConfig_Quantifier b.
Proof.
  unfold HoleConfig_Equal.
  rewrite !andb_true_iff, !bool_decide_eq_true. tauto.
Qed.

Lemma HoleConfig_Equal_eq (a b : HoleConfig) :
  HoleConfig_Equal a b = true ↔ a = b.
Proof.
  rewrite HoleConfig_Equal_true. split.
  - destruct a, b; simpl. intros (-> & -> & ->). reflexivity.
  - intros ->. auto.
Qed.

(** C3. [a.Equal(b)] on two [HoleConfig] values is true exactly when the
    three fields [Name], [Type] and [Quantifier] agree. *)
Theorem HoleConfig_Equal_spec (a b : HoleConfig) :
  HoleConfig_Equal a b = true ↔
  HoleConfig_Name a = HoleConfig_Name b ∧
  HoleConfig_Type a = HoleConfig_Type b ∧
  HoleConfig_Quantifier a = HoleConfig_Quantifier b.
Proof.
  unfold HoleConfig_Equal. split.
  - intros Heq. apply andb_prop in Heq as [Heq Hquant].
    apply andb_prop in Heq as [Hname Htype].
    by rewrite !bool_decide_eq_true in Hname, Htype, Hquant.
  - intros (Hname & Htype & Hquant).
    by rewrite !bool_decide_eq_true_2.
Qed.

Lemma Token_Equal_true (t u : Token) :
  Token_Equal t u = true ↔
  Token_Type t = Token_Type u ∧
  Token_Value t = Token_Value u ∧
  Token_Position t = Token_Position u ∧
  HoleConfig_ptrs_agree (Token_HoleConfig t) (Token_HoleConfig u).
Proof.
  unfold Token_Equal, HoleConfig_ptrs_agree.
  destruct (_ || _ || _) eqn:Hfields.
  - rewrite !orb_true_iff, !bool_decide_eq_true in Hfields.
    split; [discriminate | naive_solver].
  - rewrite !orb_false_iff, !bool_decide_eq_false in Hfields.
    destruct Hfields as [[Hty%dec_stable Hval%dec_stable] Hpos%dec_stable].
    destruct (Token_HoleConfig t) as [c|], (Token_HoleConfig u) as [d|];
      rewrite ?HoleConfig_Equal_true; naive_solver.
Qed.

(** C8. [t.Equal(u)] on two tokens is true exactly when [Type], [Value] and
    [Position] agree and the [HoleConfig] pointers are both nil or both
    non-nil with field-wise equal configs; so a token that carries a config
    never equals one whose [HoleConfig] is nil. *)
Theorem Token_Equal_spec (t u : Token) :
  (Token_Equal t u = true ↔
   Token_Type t = Token_Type u ∧
   Token_Value t = Token_Value u ∧
   Token_Position t = Token_Position u ∧
   HoleConfig_ptrs_agree (Token_HoleConfig t) (Token_HoleConfig u)) ∧
  (is_Some (Token_HoleConfig t) ∧ Token_HoleConfig u = None ∨
   Token_HoleConfig t = None ∧ is_Some (Token_HoleConfig u) →
   Token_Equal t u = false).
Proof.
  split; [apply Token_Equal_true |].
  intros Hnil. apply not_true_is_false. rewrite Token_Equal_true.
  unfold HoleConfig_ptrs_agree.
  destruct Hnil as [[[c Hc] Hu] | [Ht [d Hd]]]; naive_solver.
Qed.

(** ** NewHoleNode *)

(** C5. [NewHoleNode(name, pos)] is a hole at [pos] whose config has the
    given name, the capture kind [HoleAny] and the quantifier [QuantNone]. *)
Theorem NewHoleNode_spec (name : string) (pos : Z) :
  HoleConfig_Name (HoleNode_Config (NewHoleNode name pos)) = name ∧
  HoleConfig_Type (HoleNode_Config (NewHoleNode name pos)) = HoleAny ∧
  HoleConfig_Quantifier (HoleNode_Config (NewHoleNode name pos)) = QuantNone ∧
  HoleNode_Name (NewHoleNode name pos) = name ∧
  HoleNode_Position (NewHoleNode name pos) = pos ∧
  HoleNode_String (NewHoleNode name pos) = "HoleNode(" +:+ name +:+ ")".
Proof.
  repeat split.
  unfold HoleNode_String, NewHoleNode; simpl.
  rewrite !bool_decide_eq_true_2 by reflexivity. reflexivity.
Qed.

(** ** Equality of nodes *)

Lemma Node_Type_NodeText (n : Node) :
  Node_Type n = NodeText ↔ ∃ t, n = NText t.
Proof.
  destruct n; simpl; split; try discriminate; try (intros [? [=]]); eauto.
Qed.

Lemma TextNode_Equal_eval (t : TextNode) (other : Node) :
  TextNode_Equal t other =
  Some match other with
       | NText o => bool_decide (TextNode_Content t = TextNode_Content o)
       | _ => false
       end.
Proof. destruct other; reflexivity. Qed.

Lemma HoleNode_Equal_true (h g : HoleNode) :
  HoleNode_Equal h (NHole g) = true ↔
  HoleConfig_Equal (HoleNode_Config h) (HoleNode_Config g) = true ∧
  HoleNode_pos h = HoleNode_pos g.
Proof.
  unfold HoleNode_Equal, HoleConfig_Equal.
  rewrite !andb_true_iff, !bool_decide_eq_true. tauto.
Qed.

Lemma HoleNode_Equal_eq (h g : HoleNode) :
  HoleNode_Equal h (NHole g) = true ↔ h = g.
Proof.
  rewrite HoleNode_Equal_true, HoleConfig_Equal_eq.
  destruct h, g; simpl. split; [intros [-> ->] | intros [= -> ->]]; auto.
Qed.

Lemma Some_true_iff (b : bool) : Some b = Some true ↔ b = true.
Proof. split; [intros [=] | intros ->]; auto. Qed.

Lemma Node_Equal_true (a b : Node) :
  Node_Equal a b = Some true ↔ Equal_rel a b.
Proof.
  destruct a as [p|h|t|bl]; unfold Node_Equal;
    rewrite ?TextNode_Equal_eval, Some_true_iff.
  - destruct b; simpl; intuition discriminate.
  - destruct b as [q|g|u|bl'];
      try (simpl; intuition discriminate).
    apply HoleNode_Equal_eq.
  - destruct b; simpl; rewrite ?bool_decide_eq_true; intuition discriminate.
  - destruct b; simpl; intuition discriminate.
Qed.

Lemma Node_Equal_is_Some (a b : Node) : is_Some (Node_Equal a b).
Proof. destruct a; simpl; rewrite ?TextNode_Equal_eval; eauto. Qed.

Lemma Equal_rel_refl (a : Node) : Equal_rel a a.
Proof. destruct a; simpl; auto. Qed.

Lemma Equal_rel_sym (a b : Node) : Equal_rel a b → Equal_rel b a.
Proof. destruct a, b; simpl; auto. Qed.

Lemma Equal_rel_trans (a b c : Node) :
  Equal_rel a b → Equal_rel b c → Equal_rel a c.
Proof. destruct a, b, c; simpl; try tauto; congruence. Qed.

(** [nodesEqual] returns on all slices and decides whether two sequences
    of nodes are pairwise [Equal]. *)
Lemma nodesEqual_loop_true (a b : list Node) :
  length a = length b →
  nodesEqual_loop a b = Some true ↔ Forall2 Equal_rel a b.
Proof.
  revert b. induction a as [|x a IH]; intros [|y b] Hlen;
    try discriminate; simpl.
  - split; [constructor | done].
  - destruct (Node_Equal_is_Some x y) as [e He]. rewrite He. simpl.
    destruct e; simpl.
    + rewrite IH by (simpl in Hlen; lia). split.
      * intros Hrest. constructor; [by apply Node_Equal_true | done].
      * by inversion 1.
    + split; [discriminate |]. inversion 1 as [|? ? ? ? Hxy]; subst.
      apply Node_Equal_true in Hxy. congruence.
Qed.

Lemma nodesEqual_true (a b : list Node) :
  nodesEqual a b = Some true ↔ Forall2 Equal_rel a b.
Proof.
  unfold nodesEqual. case_bool_decide as Hlen.
  - split; [discriminate |]. intros Hab%Forall2_length. done.
  - by apply nodesEqual_loop_true.
Qed.

Lemma nodesEqual_is_Some (a b : list Node) : is_Some (nodesEqual a b).
Proof.
  unfold nodesEqual. case_bool_decide as Hlen; [eauto |].
  revert b Hlen.
  induction a as [|x a IH]; intros [|y b] Hlen; try discriminate; simpl;
    [eauto |].
  destruct (Node_Equal_is_Some x y) as [[] ->]; simpl; [| eauto].
  apply IH. simpl in Hlen. lia.
Qed.

(** C9. [Equal] is an equivalence relation on the nodes of the four
    variants: [n.Equal(n)] is true, [a.Equal(b)] is true exactly when
    [b.Equal(a)] is, and [a.Equal(b)] and [b.Equal(c)] give [a.Equal(c)]. *)
Theorem Node_Equal_equivalence :
  (∀ n : Node, Node_Equal n n = Some true) ∧
  (∀ a b : Node, Node_Equal a b = Some true ↔ Node_Equal b a = Some true) ∧
  (∀ a b c : Node,
     Node_Equal a b = Some true → Node_Equal b c = Some true →
     Node_Equal a c = Some true).
Proof.
  split; [| split].
  - intros n. apply Node_Equal_true, Equal_rel_refl.
  - intros a b. rewrite !Node_Equal_true. split; apply Equal_rel_sym.
  - intros a b c. rewrite !Node_Equal_true. apply Equal_rel_trans.
Qed.

(** In the value model, where a node is a non-nil pointer to its struct,
    [TextNode.Equal] returns on every node: only a [*TextNode] reports
    [NodeText], so the type assertion is reached only with an argument on
    which it succeeds. *)
Theorem TextNode_Equal_total (t : TextNode) (other : Node) :
  (Node_Type other = NodeText ↔ ∃ o, other = NText o) ∧
  (Node_Type other = NodeText → is_Some (assert_TextNode other)) ∧
  is_Some (TextNode_Equal t other).
Proof.
  split; [apply Node_Type_NodeText | split].
  - intros [o ->]%Node_Type_NodeText. simpl. eauto.
  - rewrite TextNode_Equal_eval. eauto.
Qed.

(** C1, as the code has it. Position is ignored by the equality of text,
    pattern and block nodes: two [TextNode]s with the same [Content], and
    two [PatternNode]s or [BlockNode]s whose children are pairwise equal,
    are [Equal] at any two positions. Two [HoleNode]s are [Equal] exactly
    when their configs are equal and their positions are the same. *)
Theorem Equal_position_spec :
  (∀ t u : TextNode,
     TextNode_Content t = TextNode_Content u →
     Node_Equal (NText t) (NText u) = Some true) ∧
  (∀ p q : PatternNode,
     nodesEqual (PatternNode_Children p) (PatternNode_Children q) = Some true →
     Node_Equal (NPattern p) (NPattern q) = Some true) ∧
  (∀ b c : BlockNode,
     nodesEqual (BlockNode_Content b) (BlockNode_Content c) = Some true →
     Node_Equal (NBlock b) (NBlock c) = Some true) ∧
  (∀ h g : HoleNode,
     Node_Equal (NHole h) (NHole g) = Some true ↔
     HoleConfig_Equal (HoleNode_Config h) (HoleNode_Config g) = true ∧
     HoleNode_pos h = HoleNode_pos g).
Proof.
  split; [| split; [| split]].
  - intros t u Hc. by apply Node_Equal_true.
  - intros p q _. reflexivity.
  - intros b c _. reflexivity.
  - intros h g. rewrite <- HoleNode_Equal_true.
    change (Node_Equal (NHole h) (NHole g))
      with (Some (HoleNode_Equal h (NHole g))).
    split; [intros Heq; by injection Heq | intros ->; reflexivity].
Qed.

(** C4, as the code has it. [TextNode.Equal] compares [Content] byte for
    byte: two [TextNode]s are [Equal] exactly when their contents are the
    same string, whatever their positions; runs of blanks are not
    collapsed. *)
Theorem TextNode_Equal_exact (t u : TextNode) :
  TextNode_Equal t (NText u) = Some true ↔
  TextNode_Content t = TextNode_Content u.
Proof.
  rewrite TextNode_Equal_eval. split.
  - intros [= Hd%bool_decide_eq_true]. exact Hd.
  - intros ->. by rewrite bool_decide_eq_true_2.
Qed.

End ValueProperties.

(** * Properties of the reference model *)

Section ReferenceProperties.
Context `{HoleKinds} `{GoStrconv}.

(** ** Computations that do not write *)

Lemma readonly_ret {A} (a : A) : readonly (ret a).
Proof. intros σ b σ' [= _ ->]. reflexivity. Qed.

Lemma readonly_panic {A} : readonly (@panic _ A).
Proof. intros σ b σ' [=]. Qed.

Lemma readonly_out_of_fuel {A} : readonly (@out_of_fuel _ A).
Proof. intros σ b σ' [=]. Qed.

Lemma readonly_load (p : ptr) : readonly (load p).
Proof.
  intros σ o σ'. unfold load.
  destruct p as [l|]; [destruct (σ !! l) |]; intros [=]; congruence.
Qed.

Lemma readonly_bind {A B} (m : M A) (k : A → M B) :
  readonly m → (∀ a, readonly (k a)) → readonly (bind m k).
Proof.
  intros Hm Hk σ b σ'. unfold bind.
  destruct (m σ) as [a σ1| |] eqn:Hrun; try discriminate.
  intros Hrun'. apply Hm in Hrun as ->. by apply Hk in Hrun'.
Qed.

Lemma readonly_lift {A} (r : option A) : readonly (lift r).
Proof. destruct r; [apply readonly_ret | apply readonly_panic]. Qed.

Ltac readonly_step :=
  match goal with
  | |- readonly (bind _ _) => apply readonly_bind; [| intros ?]
  | |- readonly (ret _) => apply readonly_ret
  | |- readonly panic => apply readonly_panic
  | |- readonly out_of_fuel => apply readonly_out_of_fuel
  | |- readonly (load _) => apply readonly_load
  | |- readonly (lift _) => apply readonly_lift
  | |- readonly (match ?x with _ => _ end) => destruct x
  end.

Ltac readonly := repeat readonly_step; auto.

Lemma readonly_load_Token p : readonly (load_Token p).
Proof. unfold load_Token. readonly. Qed.

Lemma readonly_load_HoleConfig p : readonly (load_HoleConfig p).
Proof. unfold load_HoleConfig. readonly. Qed.

Lemma readonly_load_PatternNode p : readonly (load_PatternNode p).
Proof. unfold load_PatternNode. readonly. Qed.

Lemma readonly_load_HoleNode p : readonly (load_HoleNode p).
Proof. unfold load_HoleNode. readonly. Qed.

Lemma readonly_load_TextNode p : readonly (load_TextNode p).
Proof. unfold load_TextNode. readonly. Qed.

Lemma readonly_load_BlockNode p : readonly (load_BlockNode p).
Proof. unfold load_BlockNode. readonly. Qed.

Hint Resolve readonly_load_Token readonly_load_HoleConfig
  readonly_load_PatternNode readonly_load_HoleNode readonly_load_TextNode
  readonly_load_BlockNode : core.

Lemma readonly_HoleConfig_Equal h other :
  readonly (HoleConfig_Equal_ref h other).
Proof. unfold HoleConfig_Equal_ref. readonly. Qed.

Lemma readonly_Token_Equal t other : readonly (Token_Equal_ref t other).
Proof.
  unfold Token_Equal_ref. readonly.
  all: apply readonly_HoleConfig_Equal.
Qed.

Lemma readonly_Node_Type n : readonly (Node_Type_ref n).
Proof. destruct n; simpl; readonly; apply readonly_ret. Qed.

Lemma readonly_Node_Position n : readonly (Node_Position_ref n).
Proof.
  destruct n; simpl; readonly;
    unfold PatternNode_Position_ref, HoleNode_Position_ref,
      TextNode_Position_ref, BlockNode_Position_ref; readonly.
Qed.

Lemma readonly_HoleNode_Name h : readonly (HoleNode_Name_ref h).
Proof. unfold HoleNode_Name_ref. readonly. Qed.

Lemma readonly_Node_Equal n other : readonly (Node_Equal_ref n other).
Proof.
  destruct n; simpl; readonly;
    unfold PatternNode_Equal_ref, HoleNode_Equal_ref, TextNode_Equal_ref,
      BlockNode_Equal_ref, assert_TextNode_ref;
    readonly; apply readonly_Node_Type.
Qed.

Lemma readonly_children_String StringOf children :
  (∀ n, readonly (StringOf n)) →
  ∀ i result, readonly (children_String_ref StringOf i children result).
Proof.
  intros HS. induction children as [|child rest IH]; intros i result; simpl.
  - apply readonly_ret.
  - apply readonly_bind; [apply HS | intros str; apply IH].
Qed.

Lemma readonly_Node_String fuel n : readonly (Node_String_ref fuel n).
Proof.
  revert n. induction fuel as [|fuel IH]; intros n; simpl.
  - apply readonly_out_of_fuel.
  - destruct n; simpl;
      unfold PatternNode_String_ref, HoleNode_String_ref,
        TextNode_String_ref, BlockNode_String_ref; readonly;
      by apply readonly_children_String.
Qed.

(** ** The methods on a store that holds values *)

Lemma bind_Returns {A B} (m : M A) (k : A → M B) σ a :
  m σ = Returns a σ → bind m k σ = k a σ.
Proof. unfold bind. by intros ->. Qed.

Lemma bind_ret {A B} (a : A) (k : A → M B) σ : bind (ret a) k σ = k a σ.
Proof. reflexivity. Qed.

Lemma bind_lift {A B} (r : option A) (g : A → option B) σ :
  bind (lift r) (λ a, lift (g a)) σ = lift (r ≫= g) σ.
Proof. by destruct r. Qed.

Lemma load_Some σ l o : σ !! l = Some o → load (Some l) σ = Returns o σ.
Proof. unfold load. by intros ->. Qed.

Lemma load_Token_Some σ l t :
  σ !! l = Some (OToken t) → load_Token (Some l) σ = Returns t σ.
Proof. intros Hl. unfold load_Token. by rewrite (bind_Returns _ _ _ _ (load_Some _ _ _ Hl)). Qed.

Lemma load_HoleConfig_Some σ l c :
  σ !! l = Some (OHoleConfig c) → load_HoleConfig (Some l) σ = Returns c σ.
Proof. intros Hl. unfold load_HoleConfig. by rewrite (bind_Returns _ _ _ _ (load_Some _ _ _ Hl)). Qed.

Lemma load_PatternNode_Some σ l v :
  σ !! l = Some (OPatternNode v) → load_PatternNode (Some l) σ = Returns v σ.
Proof. intros Hl. unfold load_PatternNode. by rewrite (bind_Returns _ _ _ _ (load_Some _ _ _ Hl)). Qed.

Lemma load_HoleNode_Some σ l v :
  σ !! l = Some (OHoleNode v) → load_HoleNode (Some l) σ = Returns v σ.
Proof. intros Hl. unfold load_HoleNode. by rewrite (bind_Returns _ _ _ _ (load_Some _ _ _ Hl)). Qed.

Lemma load_TextNode_Some σ l v :
  σ !! l = Some (OTextNode v) → load_TextNode (Some l) σ = Returns v σ.
Proof. intros Hl. unfold load_TextNode. by rewrite (bind_Returns _ _ _ _ (load_Some _ _ _ Hl)). Qed.

Lemma load_BlockNode_Some σ l v :
  σ !! l = Some (OBlockNode v) → load_BlockNode (Some l) σ = Returns v σ.
Proof. intros Hl. unfold load_BlockNode. by rewrite (bind_Returns _ _ _ _ (load_Some _ _ _ Hl)). Qed.

(** Runs the loads at the head of a computation whose objects are known. *)
Ltac run_loads :=
  repeat first
    [ erewrite (bind_Returns (load_Token _)) by (by apply load_Token_Some)
    | erewrite (bind_Returns (load_HoleConfig _)) by (by apply load_HoleConfig_Some)
    | erewrite (bind_Returns (load_PatternNode _)) by (by apply load_PatternNode_Some)
    | erewrite (bind_Returns (load_HoleNode _)) by (by apply load_HoleNode_Some)
    | erewrite (bind_Returns (load_TextNode _)) by (by apply load_TextNode_Some)
    | erewrite (bind_Returns (load_BlockNode _)) by (by apply load_BlockNode_Some) ].

(** What [read_Node] has found when it succeeds. *)
Lemma read_Node_inv fuel σ n v :
  read_Node (S fuel) σ n = Some v →
  match n with
  | INil => False
  | IPattern p => ∃ l pv children,
      p = Some l ∧ σ !! l = Some (OPatternNode pv) ∧
      mapM (read_Node fuel σ) (PatternNode_Children pv) = Some children ∧
      v = NPattern (mkPatternNode children (PatternNode_pos pv))
  | IHole p => ∃ l hv,
      p = Some l ∧ σ !! l = Some (OHoleNode hv) ∧ v = NHole hv
  | IText p => ∃ l tv,
      p = Some l ∧ σ !! l = Some (OTextNode tv) ∧ v = NText tv
  | IBlock p => ∃ l bv content,
      p = Some l ∧ σ !! l = Some (OBlockNode bv) ∧
      mapM (read_Node fuel σ) (BlockNode_Content bv) = Some content ∧
      v = NBlock (mkBlockNode content (BlockNode_pos bv))
  end.
Proof.
  destruct n as [|[l|]|[l|]|[l|]|[l|]]; simpl; try discriminate;
    destruct (σ !! l) as [[]|] eqn:Hl; simpl; try discriminate.
  - destruct (mapM _ _) eqn:Hm; simpl; [|discriminate].
    intros [= <-]. by eexists _, _, _.
  - intros [= <-]. by eexists _, _.
  - intros [= <-]. by eexists _, _.
  - destruct (mapM _ _) eqn:Hm; simpl; [|discriminate].
    intros [= <-]. by eexists _, _, _.
Qed.

Lemma read_Node_fuel fuel σ n v :
  read_Node fuel σ n = Some v → ∃ fuel', fuel = S fuel'.
Proof. destruct fuel; [discriminate | eauto]. Qed.

Ltac read_inv Hr :=
  let f := fresh "fuel" in
  let Hf := fresh in
  destruct (read_Node_fuel _ _ _ _ Hr) as [f Hf]; subst;
  apply read_Node_inv in Hr.

Lemma Node_Type_ref_agree fuel σ n v :
  read_Node fuel σ n = Some v →
  Node_Type_ref n σ = Returns (Node_Type v) σ.
Proof.
  intros Hr. read_inv Hr.
  destruct n; [done | ..]; destruct Hr as (? & ? & Hr); [destruct Hr as (? & Hr) | | | destruct Hr as (? & Hr)];
    destruct_and!; subst; reflexivity.
Qed.

Lemma Node_Position_ref_agree fuel σ n v :
  read_Node fuel σ n = Some v →
  Node_Position_ref n σ = Returns (Node_Position v) σ.
Proof.
  intros Hr. read_inv Hr.
  destruct n; [done | ..]; destruct Hr as (l & ? & Hr); [destruct Hr as (? & Hr) | | | destruct Hr as (? & Hr)];
    destruct_and!; subst; simpl;
    unfold PatternNode_Position_ref, HoleNode_Position_ref,
      TextNode_Position_ref, BlockNode_Position_ref;
    by run_loads.
Qed.

Ltac read_cases Hr :=
  let Hchildren := fresh "Hchildren" in
  match type of Hr with
  | False => destruct Hr
  | _ => destruct Hr as (? & ? & Hr);
         first [ destruct Hr as (? & ? & ? & Hchildren & ?)
               | destruct Hr as (? & ? & ?) ];
         subst
  end.

Lemma Node_Equal_ref_agree fuel fuel' σ n other v w :
  read_Node fuel σ n = Some v →
  read_Node fuel' σ other = Some w →
  Node_Equal_ref n other σ = lift (Node_Equal v w) σ.
Proof.
  intros Hn Ho. read_inv Hn. read_inv Ho.
  destruct n; read_cases Hn; destruct other; read_cases Ho; simpl;
    unfold HoleNode_Equal_ref, TextNode_Equal_ref; simpl;
    try reflexivity.
  - by run_loads.
  - unfold TextNode_Type_ref. rewrite bind_ret.
    rewrite bool_decide_eq_false_2 by (intros Hne; by apply Hne).
    run_loads. rewrite bind_ret. by run_loads.
Qed.

Lemma HoleNode_Name_ref_agree σ l hv :
  σ !! l = Some (OHoleNode hv) →
  HoleNode_Name_ref (Some l) σ = Returns (HoleNode_Name hv) σ.
Proof. intros Hl. unfold HoleNode_Name_ref. by run_loads. Qed.

Lemma HoleConfig_Equal_ref_agree σ l c other :
  σ !! l = Some (OHoleConfig c) →
  HoleConfig_Equal_ref (Some l) other σ = Returns (HoleConfig_Equal c other) σ.
Proof. intros Hl. unfold HoleConfig_Equal_ref. by run_loads. Qed.

Lemma Token_Equal_ref_agree σ l t other tv ov :
  σ !! l = Some (OToken t) →
  read_Token σ t = Some tv →
  read_Token σ other = Some ov →
  Token_Equal_ref (Some l) other σ = Returns (Token_Equal tv ov) σ.
Proof.
  intros Hl Ht Ho. unfold Token_Equal_ref. run_loads.
  unfold read_Token in Ht, Ho. unfold Token_Equal.
  destruct (Token_HoleConfig t) as [lt|] eqn:Hpt;
    [destruct (σ !! lt) as [[]|] eqn:Hlt; try discriminate |];
    (destruct (Token_HoleConfig other) as [lo|] eqn:Hpo;
      [destruct (σ !! lo) as [[]|] eqn:Hlo; try discriminate |]);
    injection Ht as <-; injection Ho as <-; simpl;
    destruct (_ || _ || _); try reflexivity.
  run_loads. by apply HoleConfig_Equal_ref_agree.
Qed.

Lemma bind_run {A B} (m m' : M A) (k : A → M B) σ :
  m σ = m' σ → bind m k σ = bind m' k σ.
Proof. unfold bind. by intros ->. Qed.

Lemma children_String_ref_agree fuel σ :
  (∀ n v, read_Node fuel σ n = Some v →
          Node_String_ref fuel n σ = lift (Node_String v) σ) →
  ∀ children values,
    mapM (read_Node fuel σ) children = Some values →
    ∀ i result,
      children_String_ref (Node_String_ref fuel) i children result σ =
      lift (children_String Node_String i values result) σ.
Proof.
  intros IH children values Hread%mapM_Some_1.
  induction Hread as [|child v rest values' Hchild _ IHrest];
    intros i result; simpl; [reflexivity |].
  rewrite (bind_run _ _ _ _ (IH _ _ Hchild)).
  destruct (Node_String v) as [str|]; simpl; [| reflexivity].
  rewrite bind_ret. apply IHrest.
Qed.

Lemma Node_String_ref_agree fuel σ n v :
  read_Node fuel σ n = Some v →
  Node_String_ref fuel n σ = lift (Node_String v) σ.
Proof.
  revert n v. induction fuel as [|fuel IH]; intros n v Hr; [discriminate |].
  apply read_Node_inv in Hr.
  destruct n; read_cases Hr; simpl.
  - unfold PatternNode_String_ref, PatternNode_String. run_loads. simpl.
    erewrite bind_run by (eapply children_String_ref_agree; eauto).
    rewrite (length_mapM _ _ _ Hchildren).
    by destruct (children_String _ _ _ _).
  - unfold HoleNode_String_ref. by run_loads.
  - unfold TextNode_String_ref. by run_loads.
  - unfold BlockNode_String_ref, BlockNode_String. run_loads. simpl.
    erewrite bind_run by (eapply children_String_ref_agree; eauto).
    rewrite (length_mapM _ _ _ Hchildren).
    by destruct (children_String _ _ _ _).
Qed.

(** More fuel reads the same value. *)
Lemma read_Node_mono fuel fuel' σ n v :
  (fuel ≤ fuel')%nat →
  read_Node fuel σ n = Some v → read_Node fuel' σ n = Some v.
Proof.
  revert fuel' n v. induction fuel as [|fuel IH]; intros fuel' n v Hle Hr;
    [discriminate |].
  destruct fuel' as [|fuel']; [lia |].
  assert (Hchildren : ∀ children values,
    mapM (read_Node fuel σ) children = Some values →
    mapM (read_Node fuel' σ) children = Some values).
  { intros children values Hm%mapM_Some_1. apply mapM_Some_2.
    eapply Forall2_impl; [exact Hm |]. intros. apply IH; [lia | done]. }
  apply read_Node_inv in Hr.
  destruct n; read_cases Hr; simpl; simplify_option_eq;
    by erewrite ?Hchildren by eassumption.
Qed.

(** Induction on a node and the nodes below it. *)
Lemma Node_children_ind (P : Node → Prop) :
  (∀ children pos, Forall P children → P (NPattern (mkPatternNode children pos))) →
  (∀ h, P (NHole h)) →
  (∀ t, P (NText t)) →
  (∀ content pos, Forall P content → P (NBlock (mkBlockNode content pos))) →
  ∀ n, P n.
Proof.
  intros HP HH HT HB. fix IH 1.
  intros [[children pos]|h|t|[content pos]].
  - apply HP. induction children; constructor; auto.
  - apply HH.
  - apply HT.
  - apply HB. induction content; constructor; auto.
Qed.

Lemma children_String_total (StringOf : Node → option string) children :
  Forall (λ n, is_Some (StringOf n)) children →
  ∀ i result, is_Some (children_String StringOf i children result).
Proof.
  induction 1 as [|child rest [str Hstr] _ IH]; intros i result; simpl.
  - eauto.
  - rewrite Hstr. simpl. apply IH.
Qed.

(** [String] returns on every node when [strconv.Quote] returns the two
    quotes it puts around its result. *)
Lemma Node_String_total (n : Node) :
  (∀ s, (2 ≤ String.length (strconv_Quote s))%nat) →
  is_Some (Node_String n).
Proof.
  intros HQ. induction n as [children pos IH|h|t|content pos IH]
    using Node_children_ind; simpl.
  - unfold PatternNode_String; simpl.
    destruct (children_String_total Node_String children IH 0%nat
      ("PatternNode(" +:+ fmt_d (length children) +:+ " children):" +:+
       String newline "")) as [r ->].
    simpl. eauto.
  - eauto.
  - unfold TextNode_String, string_slice.
    rewrite bool_decide_eq_true_2; [simpl; eauto |].
    specialize (HQ (TextNode_Content t)). lia.
  - unfold BlockNode_String; simpl.
    destruct (children_String_total Node_String content IH 0%nat
      ("BlockNode(" +:+ fmt_d (length content) +:+ " children):" +:+
       String newline "")) as [r ->].
    simpl. eauto.
Qed.

(** C6. No call of [Equal], [String], [Position], [Type] or [Name] changes a
    token or a node. On a store that holds a token at [lt], a config at
    [lc], a hole at [lh] and the nodes [n] and [m], every such call returns
    what the value model computes and hands back the store it was given, so
    every field of the receiver and of the arguments is what it was. *)
Theorem methods_leave_store_unchanged
    (σ : gmap loc object)
    (lt : loc) (t other : TokenOf ptr) (tv ov : Token)
    (lc : loc) (c d : HoleConfig)
    (lh : loc) (hv : HoleNode)
    (n m : iface) (v w : Node) (fuel : nat) :
  (∀ s, (2 ≤ String.length (strconv_Quote s))%nat) →
  σ !! lt = Some (OToken t) →
  read_Token σ t = Some tv →
  read_Token σ other = Some ov →
  σ !! lc = Some (OHoleConfig c) →
  σ !! lh = Some (OHoleNode hv) →
  read_Node fuel σ n = Some v →
  read_Node fuel σ m = Some w →
  Token_Equal_ref (Some lt) other σ = Returns (Token_Equal tv ov) σ ∧
  HoleConfig_Equal_ref (Some lc) d σ = Returns (HoleConfig_Equal c d) σ ∧
  HoleNode_Name_ref (Some lh) σ = Returns (HoleNode_Name hv) σ ∧
  Node_Type_ref n σ = Returns (Node_Type v) σ ∧
  Node_Position_ref n σ = Returns (Node_Position v) σ ∧
  (∃ b, Node_Equal v w = Some b ∧ Node_Equal_ref n m σ = Returns b σ) ∧
  (∃ str, Node_String v = Some str ∧
          ∀ fuel', (fuel ≤ fuel')%nat →
                   Node_String_ref fuel' n σ = Returns str σ).
Proof.
  intros HQ Hlt Ht Ho Hlc Hlh Hn Hm. repeat split.
  - by eapply Token_Equal_ref_agree.
  - by apply HoleConfig_Equal_ref_agree.
  - by apply HoleNode_Name_ref_agree.
  - by eapply Node_Type_ref_agree.
  - by eapply Node_Position_ref_agree.
  - destruct (Node_Equal_is_Some v w) as [b Hb]. exists b. split; [done |].
    rewrite (Node_Equal_ref_agree _ _ _ _ _ _ _ Hn Hm), Hb. reflexivity.
  - destruct (Node_String_total v HQ) as [str Hstr]. exists str.
    split; [done |]. intros fuel' Hle.
    rewrite (Node_String_ref_agree fuel' σ n v), Hstr; [reflexivity |].
    by eapply read_Node_mono.
Qed.

(** X12. The same for every store and every receiver and argument, nil,
    dangling or shared: a call of [Equal], [String], [Position], [Type] or
    [Name] that returns hands back the store it was given. *)
Lemma methods_readonly :
  (∀ t other, readonly (Token_Equal_ref t other)) ∧
  (∀ h other, readonly (HoleConfig_Equal_ref h other)) ∧
  (∀ h, readonly (HoleNode_Name_ref h)) ∧
  (∀ n, readonly (Node_Type_ref n)) ∧
  (∀ n, readonly (Node_Position_ref n)) ∧
  (∀ n other, readonly (Node_Equal_ref n other)) ∧
  (∀ fuel n, readonly (Node_String_ref fuel n)).
Proof.
  repeat split; intros.
  - apply readonly_Token_Equal.
  - apply readonly_HoleConfig_Equal.
  - apply readonly_HoleNode_Name.
  - apply readonly_Node_Type.
  - apply readonly_Node_Position.
  - apply readonly_Node_Equal.
  - apply readonly_Node_String.
Qed.

End ReferenceProperties.

(** * Closed examples *)

Section Closed.
#[local] Existing Instance SpecKinds.kinds.
#[local] Existing Instance AsciiQuote.strconv.

(** C1 as stated fails on holes: two [HoleNode]s built by [NewHoleNode]
    with the same name have equal configs, and at two positions they are
    not [Equal]. *)
Lemma HoleNode_Equal_compares_position :
  HoleConfig_Equal (HoleNode_Config (NewHoleNode "x" 0))
                   (HoleNode_Config (NewHoleNode "x" 7)) = true ∧
  HoleNode_Equal (NewHoleNode "x" 0) (NHole (NewHoleNode "x" 7)) = false ∧
  Node_Equal (NHole (NewHoleNode "x" 0)) (NHole (NewHoleNode "x" 7)) = Some false.
Proof. repeat split. Qed.

(** Two text nodes with the same content at two positions are [Equal]. *)
Lemma Equal_position_spec_witness :
  Node_Equal (NText {| TextNode_Content := "a b"; TextNode_pos := 0 |})
             (NText {| TextNode_Content := "a b"; TextNode_pos := 12 |}) = Some true.
Proof. apply (proj1 Equal_position_spec). reflexivity. Defined.

(** C4 as stated fails: the text node that holds [a  b], with two blanks,
    is not [Equal] to the one that holds [a b]. *)
Lemma TextNode_Equal_two_blanks :
  TextNode_Equal {| TextNode_Content := "a  b"; TextNode_pos := 0 |}
                 (NText {| TextNode_Content := "a b"; TextNode_pos := 0 |})
  = Some false ∧
  Node_Equal (NText {| TextNode_Content := "a  b"; TextNode_pos := 0 |})
             (NText {| TextNode_Content := "a b"; TextNode_pos := 0 |})
  = Some false.
Proof. split; reflexivity. Qed.

(** C2 on the code: a pattern whose only child is the text [a] and a
    pattern whose only child is the hole [x] are [Equal], and so are two
    blocks with these contents, though [nodesEqual] tells the two
    sequences apart. *)
Lemma PatternNode_Equal_ignores_Children :
  nodesEqual [NText {| TextNode_Content := "a"; TextNode_pos := 0 |}]
             [NHole (NewHoleNode "x" 0)] = Some false ∧
  Node_Equal
    (NPattern {| PatternNode_Children :=
                   [NText {| TextNode_Content := "a"; TextNode_pos := 0 |}];
                 PatternNode_pos := 0 |})
    (NPattern {| PatternNode_Children := [NHole (NewHoleNode "x" 0)];
                 PatternNode_pos := 0 |}) = Some true ∧
  Node_Equal
    (NBlock {| BlockNode_Content :=
                 [NText {| TextNode_Content := "a"; TextNode_pos := 0 |}];
               BlockNode_pos := 0 |})
    (NBlock {| BlockNode_Content := [NHole (NewHoleNode "x" 0)];
               BlockNode_pos := 0 |}) = Some true.
Proof. repeat split. Qed.

(** The sample store holds the sample values. *)
Lemma sample_store_holds :
  read_Node 3 Sample.σ0 Sample.pattern = Some Sample.pattern_value ∧
  read_Node 3 Sample.σ0 Sample.other_pattern = Some Sample.other_pattern_value ∧
  read_Token Sample.σ0 Sample.cond_token = Some Sample.cond_token_value.
Proof. repeat split; vm_compute; reflexivity. Qed.

Lemma string_length_app (s1 s2 : string) :
  String.length (s1 +:+ s2) = (String.length s1 + String.length s2)%nat.
Proof. induction s1 as [|c s1 IH]; simpl; [done | by rewrite IH]. Qed.

Lemma Quote_length (s : string) : (2 ≤ String.length (AsciiQuote.Quote s))%nat.
Proof.
  unfold AsciiQuote.Quote. simpl. rewrite string_length_app. simpl. lia.
Qed.

(** The methods on the sample store: the token of the hole [cond] against
    itself, the two patterns against each other, and the hole they share. *)
Lemma methods_leave_store_unchanged_witness :
  Token_Equal_ref (Some 8%positive) Sample.cond_token Sample.σ0 =
    Returns (Token_Equal Sample.cond_token_value Sample.cond_token_value) Sample.σ0 ∧
  HoleConfig_Equal_ref (Some 9%positive) Sample.body_config Sample.σ0 =
    Returns (HoleConfig_Equal Sample.cond_config Sample.body_config) Sample.σ0 ∧
  HoleNode_Name_ref (Some 3%positive) Sample.σ0 =
    Returns (HoleNode_Name (NewHoleNode "cond" 3)) Sample.σ0 ∧
  Node_Type_ref Sample.pattern Sample.σ0 =
    Returns (Node_Type Sample.pattern_value) Sample.σ0 ∧
  Node_Position_ref Sample.pattern Sample.σ0 =
    Returns (Node_Position Sample.pattern_value) Sample.σ0 ∧
  (∃ b, Node_Equal Sample.pattern_value Sample.other_pattern_value = Some b ∧
        Node_Equal_ref Sample.pattern Sample.other_pattern Sample.σ0 =
        Returns b Sample.σ0) ∧
  (∃ str, Node_String Sample.pattern_value = Some str ∧
          ∀ fuel', (3 ≤ fuel')%nat →
                   Node_String_ref fuel' Sample.pattern Sample.σ0 =
                   Returns str Sample.σ0).
Proof.
  apply (methods_leave_store_unchanged
           Sample.σ0
           8%positive Sample.cond_token Sample.cond_token
           Sample.cond_token_value Sample.cond_token_value
           9%positive Sample.cond_config Sample.body_config
           3%positive (NewHoleNode "cond" 3)
           Sample.pattern Sample.other_pattern
           Sample.pattern_value Sample.other_pattern_value 3%nat).
  - exact Quote_length.
  - vm_compute; reflexivity.
  - vm_compute; reflexivity.
  - vm_compute; reflexivity.
  - vm_compute; reflexivity.
  - vm_compute; reflexivity.
  - vm_compute; reflexivity.
  - vm_compute; reflexivity.
Defined.

(** What [String] prints for the sample pattern, in the value model and on
    the store. *)
Example Node_String_sample :
  let printed :=
    "PatternNode(4 children):" +:+ String newline
    "  0: TextNode(if )" +:+ String newline
    "  1: HoleNode(cond)" +:+ String newline
    "  2: TextNode( )" +:+ String newline
    "  3: BlockNode(1 children):" +:+ String newline
    "    0: HoleNode(body:any-span)block" in
  Node_String Sample.pattern_value = Some printed ∧
  Node_String_ref 3 Sample.pattern Sample.σ0 = Returns printed Sample.σ0.
Proof. split; vm_compute; reflexivity. Qed.

(** A computation that assigns to a field is not [readonly]: the predicate
    tells a method that writes from the methods of the file. *)
Example write_is_not_readonly :
  ¬ readonly
      (write (Some 2%positive)
             (OTextNode {| TextNode_Content := "fi "; TextNode_pos := 0 |})).
Proof.
  intros Hro.
  specialize (Hro Sample.σ0 ()
    (<[2%positive :=
         OTextNode {| TextNode_Content := "fi "; TextNode_pos := 0 |}]>
       Sample.σ0) eq_refl).
  apply (f_equal (λ σ : gmap loc object, σ !! 2%positive)) in Hro.
  vm_compute in Hro. discriminate.
Qed.

End Closed.

(** * Further properties of the value model *)

Section MoreValueProperties.
Context `{HoleKinds} `{GoStrconv}.

(** ** nodesEqual *)

(** X1. [nodesEqual] returns on every two slices, and it returns true
    exactly when the slices have the same length and the elements at every
    index are [Equal]; no index of [b] is read out of range. *)
Theorem nodesEqual_spec (a b : list Node) :
  ∃ r, nodesEqual a b = Some r ∧
       (r = true ↔
        length a = length b ∧
        ∀ i x y, a !! i = Some x → b !! i = Some y →
                 Node_Equal x y = Some true).
Proof.
  destruct (nodesEqual_is_Some a b) as [r Hr]. exists r. split; [done |].
  rewrite <- (Some_true_iff r), <- Hr, nodesEqual_true.
  rewrite Forall2_same_length_lookup.
  by setoid_rewrite Node_Equal_true.
Qed.

(** X2. [nodesEqual] is an equivalence relation on slices of nodes. *)
Theorem nodesEqual_equivalence :
  (∀ a : list Node, nodesEqual a a = Some true) ∧
  (∀ a b : list Node, nodesEqual a b = Some true ↔ nodesEqual b a = Some true) ∧
  (∀ a b c : list Node,
     nodesEqual a b = Some true → nodesEqual b c = Some true →
     nodesEqual a c = Some true).
Proof.
  split; [| split].
  - intros a. apply nodesEqual_true, Forall_Forall2_diag, Forall_forall.
    intros. apply Equal_rel_refl.
  - intros a b. rewrite !nodesEqual_true.
    split; intros Hab; apply Forall2_flip;
      (eapply Forall2_impl; [exact Hab |]); apply Equal_rel_sym.
  - intros a b c. rewrite !nodesEqual_true. intros Hab Hbc.
    eapply Forall2_trans; [| exact Hab | exact Hbc].
    apply Equal_rel_trans.
Qed.

(** ** Token.Equal *)

Lemma Token_Equal_eq (t u : Token) : Token_Equal t u = true ↔ t = u.
Proof.
  rewrite Token_Equal_true. unfold HoleConfig_ptrs_agree.
  destruct t as [ty v p c], u as [ty' v' p' c']; simpl. split.
  - intros (-> & -> & -> & [[-> ->] | (x & y & -> & -> & Hxy)]); [done |].
    f_equal. f_equal. by apply HoleConfig_Equal_eq, HoleConfig_Equal_true.
  - intros [= -> -> -> ->]. repeat split.
    destruct c' as [x|]; [right | by left]. by exists x, x.
Qed.

(** X3. [Token.Equal] is true exactly when the two tokens have the same
    type, value and position and the same config or none, the configs being
    compared by their fields; so it is an equivalence relation on tokens. *)
Theorem Token_Equal_equivalence :
  (∀ t u : Token, Token_Equal t u = true ↔ t = u) ∧
  (∀ t : Token, Token_Equal t t = true) ∧
  (∀ t u : Token, Token_Equal t u = Token_Equal u t) ∧
  (∀ t u v : Token,
     Token_Equal t u = true → Token_Equal u v = true → Token_Equal t v = true).
Proof.
  split; [apply Token_Equal_eq | split; [| split]].
  - intros t. by apply Token_Equal_eq.
  - intros t u. apply eq_true_iff_eq. rewrite !Token_Equal_eq. split; congruence.
  - intros t u v. rewrite !Token_Equal_eq. congruence.
Qed.

(** ** Equal and the other methods *)

(** X4. [Equal] returns on every two nodes; two nodes that are [Equal] have
    the same [Type]; and for a pattern or a block the type of the argument
    is all that [Equal] looks at. *)
Theorem Node_Equal_Type :
  (∀ a b : Node, is_Some (Node_Equal a b)) ∧
  (∀ a b : Node, Node_Equal a b = Some true → Node_Type a = Node_Type b) ∧
  (∀ (p : PatternNode) (b : Node),
     Node_Equal (NPattern p) b = Some true ↔ Node_Type b = NodePattern) ∧
  (∀ (c : BlockNode) (b : Node),
     Node_Equal (NBlock c) b = Some true ↔ Node_Type b = NodeBlock).
Proof.
  split; [apply Node_Equal_is_Some | split; [| split]].
  - intros a b Hab%Node_Equal_true. by destruct a, b.
  - intros p b. rewrite Node_Equal_true. destruct b; simpl; split; done.
  - intros c b. rewrite Node_Equal_true. destruct b; simpl; split; done.
Qed.

(** X5. Two holes made by [NewHoleNode] are [Equal] exactly when they were
    made with the same name at the same position. *)
Theorem NewHoleNode_Equal_iff (name name' : string) (pos pos' : Z) :
  Node_Equal (NHole (NewHoleNode name pos)) (NHole (NewHoleNode name' pos'))
  = Some true ↔ name = name' ∧ pos = pos'.
Proof.
  rewrite Node_Equal_true. simpl. unfold NewHoleNode. split.
  - by intros [= -> ->].
  - by intros [-> ->].
Qed.

(** X6. What [Equal] nodes share: two [Equal] holes have the same [Name],
    [Position] and [String]; two [Equal] texts have the same [String]. *)
Theorem Equal_observations :
  (∀ h g : HoleNode,
     Node_Equal (NHole h) (NHole g) = Some true →
     HoleNode_Name h = HoleNode_Name g ∧
     HoleNode_Position h = HoleNode_Position g ∧
     HoleNode_String h = HoleNode_String g) ∧
  (∀ t u : TextNode,
     Node_Equal (NText t) (NText u) = Some true →
     TextNode_String t = TextNode_String u).
Proof.
  split.
  - intros h g Hhg%Node_Equal_true. simpl in Hhg. by subst.
  - intros t u Htu%Node_Equal_true. simpl in Htu.
    unfold TextNode_String. by rewrite Htu.
Qed.

(** ** Positions *)

Lemma children_String_ext (S1 S2 : Node → option string) (l1 l2 : list Node) :
  Forall2 (λ x y, S1 x = S2 y) l1 l2 →
  ∀ i result, children_String S1 i l1 result = children_String S2 i l2 result.
Proof.
  induction 1 as [|x y l1 l2 Hxy _ IH]; intros i result; simpl; [done |].
  rewrite Hxy. destruct (S2 y); simpl; [apply IH | done].
Qed.

(** X7. [String] prints no position: a node prints the same text wherever
    it and the nodes below it are placed. *)
Theorem Node_String_map_pos (f : Z → Z) (n : Node) :
  Node_String (map_pos f n) = Node_String n.
Proof.
  induction n as [children pos IH|h|t|content pos IH]
    using Node_children_ind; simpl; try done.
  - unfold PatternNode_String; simpl. rewrite length_map.
    erewrite children_String_ext; [done |].
    apply Forall2_fmap_l, Forall_Forall2_diag, IH.
  - unfold BlockNode_String; simpl. rewrite length_map.
    erewrite children_String_ext; [done |].
    apply Forall2_fmap_l, Forall_Forall2_diag, IH.
Qed.

(** X8. [Equal] does not change when both nodes are moved by the same
    offset, and between nodes that are not both holes it does not change
    when either is moved anywhere. *)
Theorem Node_Equal_map_pos (a b : Node) :
  (∀ k : Z, Node_Equal (map_pos (λ p, p + k) a) (map_pos (λ p, p + k) b)
            = Node_Equal a b) ∧
  (∀ f g : Z → Z,
     (Node_Type a ≠ NodeHole ∨ Node_Type b ≠ NodeHole) →
     Node_Equal (map_pos f a) (map_pos g b) = Node_Equal a b).
Proof.
  split.
  - intros k. destruct a as [p|h|t|c], b as [q|g|u|d]; try reflexivity.
    simpl. f_equal. unfold HoleNode_Equal; simpl. f_equal.
    apply bool_decide_ext. lia.
  - intros f g Hne. destruct a as [p|h|t|c], b as [q|g'|u|d]; try reflexivity.
    by destruct Hne.
Qed.

End MoreValueProperties.

(** * Properties of the printed text *)

Section Printing.
Context `{HoleKinds} `{GoStrconv}.

#[local] Arguments String.append !_ _ / : simpl nomatch.

(** ** Strings *)

Lemma string_app_assoc (s1 s2 s3 : string) :
  (s1 +:+ s2) +:+ s3 = s1 +:+ (s2 +:+ s3).
Proof. induction s1 as [|c s1 IH]; simpl; [done | f_equal; exact IH]. Qed.

Lemma string_app_nil_r (s : string) : s +:+ "" = s.
Proof. induction s as [|c s IH]; simpl; [done | f_equal; exact IH]. Qed.

Lemma no_break_app (s1 s2 : string) :
  no_break (s1 +:+ s2) ↔ no_break s1 ∧ no_break s2.
Proof. induction s1 as [|c s1 IH]; simpl; [tauto | rewrite IH; tauto]. Qed.

Lemma pretty_N_char_no_break (x : N) : pretty_N_char x ≠ newline.
Proof. unfold pretty_N_char. by repeat case_match. Qed.

Lemma pretty_N_go_no_break (x : N) (s : string) :
  no_break s → no_break (pretty_N_go x s).
Proof.
  revert s. induction (N.lt_wf_0 x) as [x _ IH]; intros s Hs.
  assert (x = 0 ∨ 0 < x)%N as [-> | Hpos] by lia.
  - by rewrite pretty_N_go_0.
  - rewrite pretty_N_go_step by done. apply IH.
    + by apply N.div_lt.
    + split; [apply pretty_N_char_no_break | done].
Qed.

Lemma fmt_d_no_break (n : nat) : no_break (fmt_d n).
Proof.
  unfold fmt_d, pretty, pretty_nat, pretty, pretty_N.
  case_decide; [by split | by apply pretty_N_go_no_break].
Qed.

Lemma indented_app (s1 s2 : string) : indented s1 → indented (s1 +:+ s2).
Proof. intros [r ->]. by exists (r +:+ s2). Qed.

Lemma no_break_breaks_indented (s : string) : no_break s → breaks_indented s.
Proof.
  induction s as [|c s IH]; simpl; [done |]. intros [Hc Hs].
  split; [done | by apply IH].
Qed.

Lemma breaks_indented_app (s1 s2 : string) :
  breaks_indented s1 → breaks_indented s2 → breaks_indented (s1 +:+ s2).
Proof.
  intros H1 H2. induction s1 as [|c s1 IH]; simpl in *; [done |].
  destruct H1 as [Hc H1]. split; [| by apply IH].
  intros Hnl. by apply indented_app, Hc.
Qed.

Lemma breaks_indented_weaken (s : string) :
  breaks_indented s → breaks_indented_open s.
Proof.
  induction s as [|c s IH]; simpl; [done |]. intros [Hc Hs]. split; auto.
Qed.

Lemma breaks_indented_open_app (s1 s2 : string) :
  breaks_indented_open s1 → breaks_indented_open s2 →
  s2 = "" ∨ indented s2 →
  breaks_indented_open (s1 +:+ s2).
Proof.
  intros H1 H2 Hs2. induction s1 as [|c s1 IH]; simpl in *; [done |].
  destruct H1 as [Hc H1]. split; [| by apply IH].
  intros Hnl. destruct (Hc Hnl) as [-> | Hind]; simpl.
  - done.
  - right. by apply indented_app.
Qed.

Lemma breaks_indented_then_open (s1 s2 : string) :
  breaks_indented s1 → breaks_indented_open s2 →
  breaks_indented_open (s1 +:+ s2).
Proof.
  intros H1 H2. induction s1 as [|c s1 IH]; simpl in *; [done |].
  destruct H1 as [Hc H1]. split; [| by apply IH].
  intros Hnl. right. by apply indented_app, Hc.
Qed.

(** ** The two library functions *)

Lemma strings_ReplaceAll_indented (s : string) :
  breaks_indented (strings_ReplaceAll s newline (String newline "  ")).
Proof.
  induction s as [|c s IH]; simpl; [done |].
  case_bool_decide as Hc; simpl.
  - split; [intros _; by eexists |].
    split; [done |]. split; [done |]. exact IH.
  - split; [done | exact IH].
Qed.

Lemma strings_TrimRight_cons (a c : ascii) (s : string) :
  a ≠ c → strings_TrimRight (String a s) c = String a (strings_TrimRight s c).
Proof.
  intros Hac. simpl. destruct (strings_TrimRight s c); [| done].
  by rewrite bool_decide_eq_false_2.
Qed.

Lemma strings_TrimRight_no_break (h s : string) :
  no_break h →
  strings_TrimRight (h +:+ s) newline = h +:+ strings_TrimRight s newline.
Proof.
  induction h as [|a h IH]; intros Hh; [done |].
  destruct Hh as [Ha Hh]. change (String a h +:+ s) with (String a (h +:+ s)).
  rewrite strings_TrimRight_cons by done. by rewrite IH.
Qed.

Lemma strings_TrimRight_indented (s : string) :
  breaks_indented_open s → breaks_indented (strings_TrimRight s newline).
Proof.
  induction s as [|a s IH]; [done |]. intros [Ha Hs].
  specialize (IH Hs).
  destruct (decide (a = newline)) as [-> | Hne].
  - simpl. destruct (strings_TrimRight s newline) as [|b r] eqn:Htrim.
    + done.
    + change (breaks_indented (String newline (String b r)))
        with ((newline = newline → indented (String b r)) ∧
              breaks_indented (String b r)).
      split; [| exact IH]. intros _.
      destruct (Ha eq_refl) as [-> | [x ->]]; [done |].
      rewrite !strings_TrimRight_cons in Htrim by done.
      injection Htrim as <- <-. by eexists.
  - rewrite strings_TrimRight_cons by done. simpl. split; [done | exact IH].
Qed.

(** ** The loop over the children *)

Lemma children_String_appends (StringOf : Node → option string) children :
  ∀ i result out,
    children_String StringOf i children result = Some out →
    ∃ tail, out = result +:+ tail ∧ (children = [] → tail = "").
Proof.
  induction children as [|child rest IH]; intros i result out; simpl.
  - intros [= <-]. exists "". by rewrite string_app_nil_r.
  - destruct (StringOf child) as [str|]; simpl; [| done].
    intros (tail & -> & _)%IH. rewrite string_app_assoc.
    eexists. split; [reflexivity | done].
Qed.

Lemma children_String_indented (StringOf : Node → option string) children :
  ∀ i result out,
    children_String StringOf i children result = Some out →
    breaks_indented_open result → breaks_indented_open out.
Proof.
  induction children as [|child rest IH]; intros i result out; simpl.
  - by intros [= <-].
  - destruct (StringOf child) as [str|]; simpl; [| done].
    intros Hout Hres. eapply IH; [exact Hout |].
    apply breaks_indented_open_app; [done | | right; by eexists].
    change ("  " +:+ fmt_d i +:+ ": " +:+
            strings_ReplaceAll str newline (String newline "  ") +:+
            String newline "")
      with (String " " (String " " (fmt_d i +:+ ": " +:+
            strings_ReplaceAll str newline (String newline "  ") +:+
            String newline ""))).
    split; [done |]. split; [done |].
    apply breaks_indented_then_open.
    { apply no_break_breaks_indented, fmt_d_no_break. }
    apply (breaks_indented_then_open ": ");
      [by apply no_break_breaks_indented |].
    apply breaks_indented_then_open;
      [apply strings_ReplaceAll_indented |].
    simpl. split; [by left | done].
Qed.

Lemma header_indented (name : string) (n : nat) :
  no_break name →
  breaks_indented_open
    (name +:+ fmt_d n +:+ " children):" +:+ String newline "").
Proof.
  intros Hname. apply breaks_indented_then_open;
    [by apply no_break_breaks_indented |].
  apply breaks_indented_then_open;
    [apply no_break_breaks_indented, fmt_d_no_break |].
  apply (breaks_indented_then_open " children):");
    [by apply no_break_breaks_indented |].
  simpl. split; [by left | done].
Qed.

(** X9. In the text [String] prints for a pattern or a block, every line
    after the first starts with two blanks, whatever its children print. *)
Theorem Node_String_indented (n : Node) (str : string) :
  Node_Type n = NodePattern ∨ Node_Type n = NodeBlock →
  Node_String n = Some str →
  breaks_indented str.
Proof.
  intros Hty Hstr. destruct n as [p|h|t|b]; simpl in *;
    try (by destruct Hty).
  - unfold PatternNode_String in Hstr.
    destruct (children_String _ _ _ _) as [out|] eqn:Hout; [| done].
    injection Hstr as <-. apply strings_TrimRight_indented.
    eapply children_String_indented; [exact Hout |].
    by apply (header_indented "PatternNode(").
  - unfold BlockNode_String in Hstr.
    destruct (children_String _ _ _ _) as [out|] eqn:Hout; [| done].
    injection Hstr as <-. apply strings_TrimRight_indented.
    eapply children_String_indented; [exact Hout |].
    by apply (header_indented "BlockNode(").
Qed.

Lemma header_String (name : string) (n : nat) (tail : string) :
  no_break name →
  strings_TrimRight
    ((name +:+ fmt_d n +:+ " children):" +:+ String newline "") +:+ tail)
    newline
  = name +:+ fmt_d n +:+ " children):" +:+
    strings_TrimRight (String newline tail) newline.
Proof.
  intros Hname.
  rewrite !string_app_assoc.
  rewrite strings_TrimRight_no_break by done. f_equal.
  rewrite strings_TrimRight_no_break by apply fmt_d_no_break. f_equal.
  by rewrite (strings_TrimRight_no_break " children):").
Qed.

(** X10. The text [String] prints for a pattern or a block starts with the
    name of the variant and the number of its children, and for a node
    with no children that is the whole text. *)
Theorem Node_String_header :
  (∀ (p : PatternNode) (str : string),
     Node_String (NPattern p) = Some str →
     ∃ rest, str = "PatternNode(" +:+ fmt_d (length (PatternNode_Children p))
                   +:+ " children):" +:+ rest ∧
             (PatternNode_Children p = [] → rest = "")) ∧
  (∀ (b : BlockNode) (str : string),
     Node_String (NBlock b) = Some str →
     ∃ rest, str = "BlockNode(" +:+ fmt_d (length (BlockNode_Content b))
                   +:+ " children):" +:+ rest ∧
             (BlockNode_Content b = [] → rest = "")).
Proof.
  split.
  - intros p str. simpl. unfold PatternNode_String.
    destruct (children_String _ _ _ _) as [out|] eqn:Hout; [| done].
    intros [= <-]. apply children_String_appends in Hout as (tail & -> & Hnil).
    rewrite (header_String "PatternNode(") by done.
    eexists. split; [done |]. intros Hp. by rewrite (Hnil Hp).
  - intros b str. simpl. unfold BlockNode_String.
    destruct (children_String _ _ _ _) as [out|] eqn:Hout; [| done].
    intros [= <-]. apply children_String_appends in Hout as (tail & -> & Hnil).
    rewrite (header_String "BlockNode(") by done.
    eexists. split; [done |]. intros Hb. by rewrite (Hnil Hb).
Qed.

(** X19. [String] returns on every node, however deep, when [strconv.Quote]
    returns at least the two quotes it puts around its result. *)
Theorem Node_String_returns (n : Node) :
  (∀ s, (2 ≤ String.length (strconv_Quote s))%nat) →
  ∃ str, Node_String n = Some str.
Proof. intros HQ. exact (Node_String_total n HQ). Qed.

End Printing.

(** * Further properties of the two models *)

Section MoreReferenceProperties.
Context `{HoleKinds} `{GoStrconv}.

Lemma substring_0_app (s1 s2 : string) :
  String.substring 0 (String.length s1) (s1 +:+ s2) = s1.
Proof.
  induction s1 as [|c s1 IH]; simpl.
  - by destruct s2.
  - f_equal. exact IH.
Qed.

Lemma string_length_snoc (s : string) (b : ascii) :
  String.length (s +:+ String b "") = S (String.length s).
Proof. induction s as [|c s IH]; simpl; [done | by f_equal]. Qed.

(** X11. [TextNode.String] panics exactly when [strconv.Quote] returns
    fewer than two bytes; otherwise it prints what [Quote] returned without
    its first and its last byte. *)
Theorem TextNode_String_spec (t : TextNode) :
  (TextNode_String t = None ↔
   (String.length (strconv_Quote (TextNode_Content t)) < 2)%nat) ∧
  (∀ (a b : ascii) (body : string),
     strconv_Quote (TextNode_Content t) = String a (body +:+ String b "") →
     TextNode_String t = Some ("TextNode(" +:+ body +:+ ")")).
Proof.
  unfold TextNode_String, string_slice. split.
  - case_bool_decide as Hlen; simpl; split; try done; lia.
  - intros a b body ->. simpl String.length. rewrite string_length_snoc.
    rewrite bool_decide_eq_true_2 by lia. simpl.
    replace (Z.to_nat (Z.of_nat (S (S (String.length body))) - 1 - 1))
      with (String.length body) by lia.
    change (Pos.to_nat 1) with 1%nat. simpl.
    by rewrite substring_0_app.
Qed.

(** X13. An argument of another dynamic type, and the nil interface: the
    [Equal] of a hole returns false without reading the store, whatever
    the receiver; the [Equal] of a text returns false on a non-nil
    argument of another type, and panics on the nil interface. *)
Theorem Equal_ref_other_type :
  (∀ σ p other,
     (∀ q, other ≠ IHole q) → HoleNode_Equal_ref p other σ = Returns false σ) ∧
  (∀ σ p other,
     other ≠ INil → (∀ q, other ≠ IText q) →
     TextNode_Equal_ref p other σ = Returns false σ) ∧
  (∀ σ p, TextNode_Equal_ref p INil σ = Panics) ∧
  (∀ σ p, PatternNode_Equal_ref p INil σ = Returns false σ) ∧
  (∀ σ p, BlockNode_Equal_ref p INil σ = Returns false σ).
Proof.
  repeat split.
  - intros σ p other Hother. destruct other; try reflexivity.
    by destruct (Hother p0).
  - intros σ p other Hnil Hother. destruct other; try reflexivity; [done |].
    by destruct (Hother p0).
Qed.

Lemma allocated_inv σ n :
  allocated σ n →
  match n with
  | INil => False
  | IPattern p => ∃ l v, p = Some l ∧ load_PatternNode p σ = Returns v σ
  | IHole p => ∃ l v, p = Some l ∧ load_HoleNode p σ = Returns v σ
  | IText p => ∃ l v, p = Some l ∧ load_TextNode p σ = Returns v σ
  | IBlock p => ∃ l v, p = Some l ∧ load_BlockNode p σ = Returns v σ
  end.
Proof.
  destruct n; simpl; [done | ..]; intros (l & v & -> & Hl); exists l, v;
    (split; [done |]).
  - by apply load_PatternNode_Some.
  - by apply load_HoleNode_Some.
  - by apply load_TextNode_Some.
  - by apply load_BlockNode_Some.
Qed.

Lemma Node_Equal_ref_returns σ n other :
  allocated σ n → allocated σ other →
  ∃ b, Node_Equal_ref n other σ = Returns b σ.
Proof.
  intros Hn%allocated_inv Ho%allocated_inv.
  destruct n as [|p|p|p|p]; [done | ..]; destruct Hn as (l & v & -> & Hl);
    (destruct other as [|q|q|q|q]; [done | ..]);
    destruct Ho as (l' & v' & -> & Hl'); simpl;
    unfold HoleNode_Equal_ref, TextNode_Equal_ref; simpl;
    try (eexists; reflexivity).
  - rewrite (bind_Returns _ _ _ _ Hl), (bind_Returns _ _ _ _ Hl').
    eexists; reflexivity.
  - unfold TextNode_Type_ref. rewrite bind_ret.
    rewrite bool_decide_eq_false_2 by (intros Hne; by apply Hne).
    rewrite (bind_Returns _ _ _ _ Hl), bind_ret, (bind_Returns _ _ _ _ Hl').
    eexists; reflexivity.
Qed.

Lemma Node_Equal_ref_refl σ n :
  allocated σ n → Node_Equal_ref n n σ = Returns true σ.
Proof.
  intros Hn%allocated_inv.
  destruct n as [|p|p|p|p]; [done | ..]; destruct Hn as (l & v & -> & Hl);
    simpl; unfold HoleNode_Equal_ref, TextNode_Equal_ref; simpl;
    try reflexivity.
  - rewrite !(bind_Returns _ _ _ _ Hl). unfold ret.
    by rewrite !bool_decide_eq_true_2.
  - unfold TextNode_Type_ref. rewrite bind_ret.
    rewrite bool_decide_eq_false_2 by (intros Hne; by apply Hne).
    rewrite (bind_Returns _ _ _ _ Hl), bind_ret, (bind_Returns _ _ _ _ Hl).
    unfold ret. by rewrite bool_decide_eq_true_2.
Qed.

(** X14. [Equal] reads the two structs and nothing below them: when the
    receiver and the argument each lead to a struct of their type, the call
    returns and leaves the store as it is, whatever their children point
    to, and a node compared with itself is [Equal]. *)
Theorem Node_Equal_ref_allocated σ n other :
  allocated σ n → allocated σ other →
  (∃ b, Node_Equal_ref n other σ = Returns b σ) ∧
  Node_Equal_ref n n σ = Returns true σ.
Proof.
  intros Hn Ho. split.
  - by apply Node_Equal_ref_returns.
  - by apply Node_Equal_ref_refl.
Qed.

(** X15. [String] follows the children: on a block whose first child is
    the block itself the recursion has no end, whatever bound it is
    given. *)
Theorem Node_String_ref_cycle σ l bv rest (fuel : nat) :
  σ !! l = Some (OBlockNode bv) →
  BlockNode_Content bv = IBlock (Some l) :: rest →
  Node_String_ref fuel (IBlock (Some l)) σ = OutOfFuel.
Proof.
  intros Hl Hcontent. induction fuel as [|fuel IH]; [done |].
  simpl. unfold BlockNode_String_ref.
  rewrite (bind_Returns _ _ _ _ (load_BlockNode_Some _ _ _ Hl)).
  rewrite Hcontent. simpl. unfold bind at 1. unfold bind at 1.
  by rewrite IH.
Qed.

Lemma classic_allocated σ n : allocated σ n ∨ ¬ allocated σ n.
Proof.
  destruct n as [|p|p|p|p]; simpl; [right; tauto | ..];
    (destruct p as [l|]; [destruct (σ !! l) as [[]|] eqn:Hl |]);
    try (left; by eexists _, _);
    right; intros (l' & v & Heq & Hv); simplify_eq.
Qed.

(** X16. [Type] returns on every interface value but nil and reads
    nothing; [Position] returns exactly when the pointer leads to a struct
    of its type, and panics otherwise. *)
Theorem Type_Position_ref_returns σ n :
  ((∃ ty, Node_Type_ref n σ = Returns ty σ) ↔ n ≠ INil) ∧
  ((∃ pos, Node_Position_ref n σ = Returns pos σ) ↔ allocated σ n) ∧
  (¬ allocated σ n → Node_Position_ref n σ = Panics).
Proof.
  assert (Hpanics : ¬ allocated σ n → Node_Position_ref n σ = Panics).
  { destruct n as [|p|p|p|p]; simpl; [done | ..];
      (destruct p as [l|]; [destruct (σ !! l) as [[]|] eqn:Hl |]);
      intros Hna;
      unfold PatternNode_Position_ref, HoleNode_Position_ref,
        TextNode_Position_ref, BlockNode_Position_ref,
        load_PatternNode, load_HoleNode, load_TextNode, load_BlockNode,
        bind, load;
      rewrite ?Hl; try reflexivity;
      destruct Hna; by eexists _, _. }
  split; [| split; [| exact Hpanics]].
  - destruct n; simpl; split; try done; try (intros _; eexists; reflexivity).
    by intros [ty Hty].
  - split.
    + intros [pos Hpos].
      destruct (classic_allocated σ n) as [Hn | Hn]; [done |].
      by rewrite (Hpanics Hn) in Hpos.
    + intros Hn%allocated_inv.
      destruct n as [|p|p|p|p]; [done | ..];
        destruct Hn as (l & v & -> & Hl); simpl;
        unfold PatternNode_Position_ref, HoleNode_Position_ref,
          TextNode_Position_ref, BlockNode_Position_ref;
        rewrite (bind_Returns _ _ _ _ Hl); eexists; reflexivity.
Qed.

(** X17. [Token.Equal] compares the two configs by their fields and not by
    their addresses: when both tokens point to a config, the call returns
    true exactly when type, value and position agree and the two configs
    hold the same fields, and it leaves the store as it is. *)
Theorem Token_Equal_ref_by_content σ lt t other p q c d :
  σ !! lt = Some (OToken t) →
  Token_HoleConfig t = Some p → σ !! p = Some (OHoleConfig c) →
  Token_HoleConfig other = Some q → σ !! q = Some (OHoleConfig d) →
  ∃ r, Token_Equal_ref (Some lt) other σ = Returns r σ ∧
       (r = true ↔
        Token_Type t = Token_Type other ∧
        Token_Value t = Token_Value other ∧
        Token_Position t = Token_Position other ∧
        c = d).
Proof.
  intros Hlt Hp Hc Hq Hd. eexists. split.
  - eapply Token_Equal_ref_agree; [done | |].
    + unfold read_Token. by rewrite Hp, Hc.
    + unfold read_Token. by rewrite Hq, Hd.
  - rewrite Token_Equal_eq. simpl. split.
    + by intros [= -> -> -> ->].
    + by intros (-> & -> & -> & ->).
Qed.

(** ** TextNode.Equal on every interface value *)

Lemma TextNode_Equal_ref_text σ t q :
  TextNode_Equal_ref t (IText q) σ =
  bind (load_TextNode t)
       (λ tv, bind (load_TextNode q)
                   (λ ov, ret (bool_decide
                                 (TextNode_Content tv = TextNode_Content ov))))
       σ.
Proof.
  unfold TextNode_Equal_ref. simpl. unfold TextNode_Type_ref.
  rewrite bind_ret.
  rewrite bool_decide_eq_false_2 by (intros Hne; by apply Hne).
  reflexivity.
Qed.

Lemma load_TextNode_not_allocated σ p :
  ¬ allocated σ (IText p) → load_TextNode p σ = Panics.
Proof.
  intros Hna. unfold load_TextNode, bind, load.
  destruct p as [l|]; [| done].
  destruct (σ !! l) as [[]|] eqn:Hl; try done.
  destruct Hna. simpl. by eexists _, _.
Qed.

(** C10, as the code has it. The type assertion in [TextNode.Equal] never
    fails: of the dynamic types only [*TextNode] reports [NodeText], so the
    assertion is reached only with an argument on which it succeeds. The
    call returns false on every non-nil argument of another variant,
    whatever the receiver, and it returns the comparison of the contents
    when the receiver and a [*TextNode] argument are pointers to text
    nodes. It does fail past the assertion, on [.Content], when the
    receiver or a [*TextNode] argument is a nil pointer, and on the nil
    interface, at [other.Type()]. *)
Theorem TextNode_Equal_ref_spec σ (t : ptr) (other : iface) :
  (Node_Type_ref other σ = Returns NodeText σ ↔ ∃ q, other = IText q) ∧
  (Node_Type_ref other σ = Returns NodeText σ →
   ∃ o, assert_TextNode_ref other σ = Returns o σ) ∧
  (other ≠ INil → (∀ q, other ≠ IText q) →
   TextNode_Equal_ref t other σ = Returns false σ) ∧
  (∀ l l' tv ov,
     t = Some l → other = IText (Some l') →
     σ !! l = Some (OTextNode tv) → σ !! l' = Some (OTextNode ov) →
     TextNode_Equal_ref t other σ =
     Returns (bool_decide (TextNode_Content tv = TextNode_Content ov)) σ) ∧
  (∀ q, other = IText q →
        ¬ (allocated σ (IText t) ∧ allocated σ (IText q)) →
        TextNode_Equal_ref t other σ = Panics) ∧
  (other = INil → TextNode_Equal_ref t other σ = Panics).
Proof.
  split; [| split; [| split; [| split; [| split]]]].
  - destruct other; simpl; split; try discriminate; try (by intros [q [=]]).
    intros _. by eexists.
  - destruct other; simpl; try discriminate. intros _. by eexists.
  - intros Hnil Htext. destruct other as [|q|q|q|q]; try reflexivity.
    + done.
    + by destruct (Htext q).
  - intros l l' tv ov -> -> Hl Hl'. rewrite TextNode_Equal_ref_text.
    rewrite (bind_Returns _ _ _ _ (load_TextNode_Some _ _ _ Hl)).
    by rewrite (bind_Returns _ _ _ _ (load_TextNode_Some _ _ _ Hl')).
  - intros q -> Hna. rewrite TextNode_Equal_ref_text.
    destruct (classic_allocated σ (IText t)) as [Ht | Ht].
    + destruct (classic_allocated σ (IText q)) as [Hq | Hq];
        [by destruct Hna |].
      apply allocated_inv in Ht as (l & tv & -> & Hl).
      rewrite (bind_Returns _ _ _ _ Hl). unfold bind.
      by rewrite (load_TextNode_not_allocated _ _ Hq).
    + unfold bind at 1. by rewrite (load_TextNode_not_allocated _ _ Ht).
  - intros ->. reflexivity.
Qed.

End MoreReferenceProperties.

(** * The lint rules *)

(** X18. No two rule types have the same [Name]. *)
Theorem Rule_Name_inj (r1 r2 : Rule) :
  Rule_Name r1 = Rule_Name r2 → same_rule_type r1 r2.
Proof. destruct r1, r2; simpl; done. Qed.

(** * Closed examples of the further properties *)

Section MoreClosed.
#[local] Existing Instance SpecKinds.kinds.
#[local] Existing Instance AsciiQuote.strconv.

(** The text printed for the sample pattern has its lines indented. *)
Lemma Node_String_indented_witness :
  breaks_indented
    ("PatternNode(4 children):" +:+ String newline
     "  0: TextNode(if )" +:+ String newline
     "  1: HoleNode(cond)" +:+ String newline
     "  2: TextNode( )" +:+ String newline
     "  3: BlockNode(1 children):" +:+ String newline
     "    0: HoleNode(body:any-span)block").
Proof.
  apply (Node_String_indented Sample.pattern_value).
  - left. reflexivity.
  - vm_compute. reflexivity.
Defined.

(** The block that contains itself is [Equal] to itself. *)
Lemma Node_Equal_ref_allocated_witness :
  (∃ b, Node_Equal_ref Shared.loop_block Shared.loop_block Shared.σ1
        = Returns b Shared.σ1) ∧
  Node_Equal_ref Shared.loop_block Shared.loop_block Shared.σ1
  = Returns true Shared.σ1.
Proof.
  apply (Node_Equal_ref_allocated Shared.σ1 Shared.loop_block Shared.loop_block).
  - eexists _, _. split; [reflexivity | vm_compute; reflexivity].
  - eexists _, _. split; [reflexivity | vm_compute; reflexivity].
Defined.

(** [String] on the block that contains itself. *)
Lemma Node_String_ref_cycle_witness :
  Node_String_ref 1000 Shared.loop_block Shared.σ1 = OutOfFuel.
Proof.
  apply (Node_String_ref_cycle Shared.σ1 1%positive
           {| BlockNode_Content := [IBlock (Some 1%positive)];
              BlockNode_pos := 0 |} [] 1000).
  - vm_compute. reflexivity.
  - reflexivity.
Defined.

(** A token against its copy whose config lies at another address. *)
Lemma Token_Equal_ref_by_content_witness :
  ∃ r, Token_Equal_ref (Some 2%positive) Shared.x_token_copy Shared.σ1
       = Returns r Shared.σ1 ∧
       (r = true ↔
        Token_Type Shared.x_token = Token_Type Shared.x_token_copy ∧
        Token_Value Shared.x_token = Token_Value Shared.x_token_copy ∧
        Token_Position Shared.x_token = Token_Position Shared.x_token_copy ∧
        Shared.x_config = Shared.x_config).
Proof.
  apply (Token_Equal_ref_by_content Shared.σ1 2%positive Shared.x_token
           Shared.x_token_copy 3%positive 4%positive
           Shared.x_config Shared.x_config).
  - vm_compute. reflexivity.
  - reflexivity.
  - vm_compute. reflexivity.
  - reflexivity.
  - vm_compute. reflexivity.
Defined.

(** [String] returns on the sample pattern. *)
Lemma Node_String_returns_witness :
  ∃ str, Node_String Sample.pattern_value = Some str.
Proof. apply (Node_String_returns Sample.pattern_value). exact Quote_length. Defined.

(** C10 as stated fails on a nil [*TextNode]: it reports [NodeText], the
    type assertion succeeds on it, and the call panics, here with the text
    node at address 2 of the sample store as the receiver. *)
Lemma TextNode_Equal_nil_TextNode :
  Node_Type_ref (IText None) Sample.σ0 = Returns NodeText Sample.σ0 ∧
  assert_TextNode_ref (IText None) Sample.σ0 = Returns None Sample.σ0 ∧
  TextNode_Equal_ref (Some 2%positive) (IText None) Sample.σ0 = Panics.
Proof. repeat split; vm_compute; reflexivity. Qed.

(** The two text nodes of the sample store, [if ] and a blank. *)
Lemma TextNode_Equal_ref_spec_witness :
  TextNode_Equal_ref (Some 2%positive) (IText (Some 4%positive)) Sample.σ0 =
  Returns (bool_decide ("if " = " ")) Sample.σ0.
Proof.
  apply (proj1 (proj2 (proj2 (proj2
           (TextNode_Equal_ref_spec Sample.σ0 (Some 2%positive)
              (IText (Some 4%positive))))))
           2%positive 4%positive
           {| TextNode_Content := "if "; TextNode_pos := 0 |}
           {| TextNode_Content := " "; TextNode_pos := 10 |}).
  - reflexivity.
  - reflexivity.
  - vm_compute. reflexivity.
  - vm_compute. reflexivity.
Defined.

End MoreClosed.

(** Two rules of the one type that has a field. *)
Lemma Rule_Name_inj_witness :
  same_rule_type (CyclomaticComplexityRule 10) (CyclomaticComplexityRule 20).
Proof.
  apply (Rule_Name_inj (CyclomaticComplexityRule 10) (CyclomaticComplexityRule 20)).
  reflexivity.
Defined.
